(** * Script-to-ordered-audio pipeline: parsing, synthesis driver, assembler

    A shallow embedding of [audio-podcast-workflow.py]
    ([PodcastScriptProcessor]) and [cutting-podcast-workflow.py]
    ([AudioConcatenator]), followed by the properties of the pipeline.

    Conventions of the embedding:
    - a Python [str] is a [string]; a character is a code point below 256
      (Latin-1), so the character classes of Python 3 ([str.isspace],
      [str.lower], the Unicode-aware [\w] and [\d] of [re]) are written out
      on that range;
    - a [dict] whose iteration order is never observed is a [gmap]; the inner
      dictionaries of the assembler, whose insertion order is observed, are
      association lists;
    - exceptions are a [result] type; logging, provider calls and file
      writes are events appended to a trace;
    - the libraries are outside the program: the speech provider, the
      segments of the audio library with their decoder, their [+], their
      empty segment and their export, and the outcomes of [mkdir] and of
      the constructor of the client are parameters. *)

From stdpp Require Import gmap strings list sorting.
From Stdlib Require Import Strings.Ascii Strings.Byte DecimalString DecimalN.

(** ** Python exceptions that the modelled code can raise *)

Inductive exn :=
  | KeyError
  | IndexError
  | ValueError
  | LibraryError (class_name : string).

Inductive result (A : Type) :=
  | Ok (a : A)
  | Raise (e : exn).
Arguments Ok {A} a.
Arguments Raise {A} e.

#[global] Instance result_ret : MRet result := λ A a, Ok a.
#[global] Instance result_bind : MBind result := λ A B f m,
  match m with
  | Ok a => f a
  | Raise e => Raise e
  end.
#[global] Instance result_fmap : FMap result := λ A B f m,
  match m with
  | Ok a => Ok (f a)
  | Raise e => Raise e
  end.

(** ** Python string primitives *)

Module PyStr.

Definition ord (c : ascii) : N := N_of_ascii c.

Definition in_range (lo hi : N) (c : ascii) : bool :=
  ((lo <=? ord c) && (ord c <=? hi))%N.

Definition LF : ascii := "010"%char.

(** [str.isspace] on one character. *)
Definition isspace (c : ascii) : bool :=
  in_range 9 13 c || in_range 28 32 c || (ord c =? 133)%N || (ord c =? 160)%N.

(** The class [0-9]; also [\d] of [re] below code point 256. *)
Definition isdigit (c : ascii) : bool := in_range 48 57 c.

Definition isupper_ascii (c : ascii) : bool := in_range 65 90 c.
Definition islower_ascii (c : ascii) : bool := in_range 97 122 c.

(** The class [a-zA-Z]. *)
Definition isletter (c : ascii) : bool := isupper_ascii c || islower_ascii c.

(** [str.isalnum] on one character (letters, decimal digits and the other
    numeric characters of Latin-1). *)
Definition isalnum (c : ascii) : bool :=
  isdigit c || isletter c
  || (ord c =? 170)%N || (ord c =? 178)%N || (ord c =? 179)%N
  || (ord c =? 181)%N || (ord c =? 185)%N || (ord c =? 186)%N
  || in_range 188 190 c || in_range 192 214 c || in_range 216 246 c
  || in_range 248 255 c.

(** [\w] of [re] on a [str] pattern: alphanumeric or underscore. *)
Definition isword (c : ascii) : bool := isalnum c || Ascii.eqb c "_".

(** [str.lower] on one character. *)
Definition lower_char (c : ascii) : ascii :=
  if isupper_ascii c || (in_range 192 222 c && negb (ord c =? 215)%N)
  then ascii_of_N (ord c + 32) else c.

Fixpoint map (f : ascii → ascii) (s : string) : string :=
  match s with
  | EmptyString => EmptyString
  | String c s' => String (f c) (map f s')
  end.

Fixpoint forallb (p : ascii → bool) (s : string) : bool :=
  match s with
  | EmptyString => true
  | String c s' => p c && forallb p s'
  end.

(** [str.lower] on a string of code points below 256: on that range it
    maps every character to one character. *)
Definition lower (s : string) : string := map lower_char s.

Fixpoint lstrip (s : string) : string :=
  match s with
  | EmptyString => EmptyString
  | String c s' => if isspace c then lstrip s' else s
  end.

Fixpoint rstrip (s : string) : string :=
  match s with
  | EmptyString => EmptyString
  | String c s' =>
      match rstrip s' with
      | EmptyString => if isspace c then EmptyString else String c EmptyString
      | r => String c r
      end
  end.

(** [str.strip()] with no argument. *)
Definition strip (s : string) : string := rstrip (lstrip s).

(** [str(n)] and the f-string field [{n}] for a non-negative [int]. *)
Definition str (n : N) : string := NilEmpty.string_of_uint (N.to_uint n).

(** [int(s)] on a string of decimal digits; [None] stands for [ValueError].
    The limit of Python on the number of digits of [s] is not modelled: it
    is beyond the length of a file name. *)
Definition int (s : string) : option N :=
  N.of_uint <$> NilEmpty.uint_of_string s.

(** Longest prefix of [s] whose characters satisfy [p], and the rest. *)
Fixpoint span (p : ascii → bool) (s : string) : string * string :=
  match s with
  | EmptyString => (EmptyString, EmptyString)
  | String c s' =>
      if p c then let '(a, b) := span p s' in (String c a, b)
      else (EmptyString, s)
  end.

(** [Some r] when [s = p ++ r]. *)
Fixpoint strip_prefix (p s : string) : option string :=
  match p with
  | EmptyString => Some s
  | String a p' =>
      match s with
      | EmptyString => None
      | String b s' => if Ascii.eqb a b then strip_prefix p' s' else None
      end
  end.

(** Text-mode decoding with universal newlines: a CR LF pair and a lone
    CR are read as LF. *)
Fixpoint translate_newlines (s : string) : string :=
  match s with
  | EmptyString => EmptyString
  | String c s' =>
      if Ascii.eqb c "013" then
        match s' with
        | String d s'' =>
            if Ascii.eqb d LF then String LF (translate_newlines s'')
            else String LF (translate_newlines s')
        | EmptyString => String LF EmptyString
        end
      else String c (translate_newlines s')
  end.

(** Split after every LF, the LF kept at the end of its line. *)
Fixpoint splitlines_keepends (s : string) : list string :=
  match s with
  | EmptyString => []
  | String c s' =>
      if Ascii.eqb c LF then String c EmptyString :: splitlines_keepends s'
      else match splitlines_keepends s' with
           | [] => [String c EmptyString]
           | l :: ls => String c l :: ls
           end
  end.

(** [file.readlines()] of a file opened in text mode. *)
Definition readlines (content : string) : list string :=
  splitlines_keepends (translate_newlines content).

End PyStr.

(** [enumerate(l, start)] *)
Fixpoint enumerate {A} (start : N) (l : list A) : list (N * A) :=
  match l with
  | [] => []
  | x :: l' => (start, x) :: enumerate (N.succ start) l'
  end.

(** ** audio-podcast-workflow.py *)

Module Synth.

Import PyStr.

Definition not_rbracket (c : ascii) : bool := negb (Ascii.eqb c "]").

(** [re.compile(r'^\[([^\]]+)\]:').match(line)]: the name captured by
    group 1 and the text after the match. *)
Definition name_pattern (line : string) : option (string * string) :=
  s ← strip_prefix "[" line;
  let '(name, tl) := span not_rbracket s in
  match name with
  | EmptyString => None
  | _ => rest ← strip_prefix "]:" tl; Some (name, rest)
  end.

(** The alternatives of the group [( n1 | n2 | ... )] built by
    ['|'.join(re.escape(name) for name in names)]: joining no name gives
    the empty pattern, whose only alternative is the empty string. *)
Definition alternatives (names : list string) : list string :=
  match names with
  | [] => [EmptyString]
  | _ => names
  end.

(** [re.compile(r'^\[(' + '|'.join(...) + r')\]:').match(line)]: group 1
    is the first alternative after which the match succeeds. *)
Definition order_pattern (names : list string) (line : string) : option string :=
  List.find (λ name, bool_decide (is_Some (strip_prefix ("[" +:+ name +:+ "]:") line)))
            (alternatives names).

(** The pattern of [_extract_lines_per_speaker], the tag followed by a
    greedy run of any characters as group 2, and its [match.groups()];
    the dot of group 2 does not match a line feed. *)
Definition line_pattern (line : string) : option (string * string) :=
  '(name, rest) ← name_pattern line;
  Some (name, fst (span (λ c, negb (Ascii.eqb c LF)) rest)).

Record PodcastScriptProcessor := {
  voice_map : gmap string string;
  lines : list string;
  speaker_names : list string;
  speaker_orders : list string;
  lines_per_speaker : gmap string (list string);
}.

Definition _read_script (content : string) : list string := readlines content.

Definition _extract_speaker_names (lines : list string) : list string :=
  let names : gset string :=
    list_to_set (omap (λ line, fst <$> name_pattern (strip line)) lines) in
  merge_sort String.le (elements names).

Definition _extract_speaker_order (speaker_names lines : list string) : list string :=
  omap (λ line, order_pattern speaker_names (strip line)) lines.

(** The loop of [_extract_lines_per_speaker]; [speaker_lines[name]] raises
    [KeyError] on a name that is not a key. *)
Fixpoint lines_loop (speaker_lines : gmap string (list string))
    (lines : list string) : result (gmap string (list string)) :=
  match lines with
  | [] => Ok speaker_lines
  | line :: rest =>
      match line_pattern (strip line) with
      | Some (name, spoken_line) =>
          match speaker_lines !! name with
          | Some l => lines_loop (<[name := l ++ [strip spoken_line]]> speaker_lines) rest
          | None => Raise KeyError
          end
      | None => lines_loop speaker_lines rest
      end
  end.

Definition _extract_lines_per_speaker (speaker_names lines : list string)
  : result (gmap string (list string)) :=
  lines_loop (list_to_map ((λ name, (name, [])) <$> speaker_names)) lines.

(** [__init__] on the content of an existing script file; the output
    directory and the API key take no part in what follows. *)
Definition init (content : string) (voice_map : option (gmap string string))
  : result PodcastScriptProcessor :=
  let vm := default ∅ voice_map in
  let lines := _read_script content in
  let names := _extract_speaker_names lines in
  let orders := _extract_speaker_order names lines in
  lps ← _extract_lines_per_speaker names lines;
  Ok {| voice_map := vm; lines := lines; speaker_names := names;
        speaker_orders := orders; lines_per_speaker := lps |}.

(** [re.sub(r'[^\w\-_.]', '_', name)] *)
Definition keeps (c : ascii) : bool :=
  isword c || Ascii.eqb c "-" || Ascii.eqb c "_" || Ascii.eqb c ".".

Definition _sanitize_filename (name : string) : string :=
  PyStr.map (λ c, if keeps c then c else "_"%char) name.

(** [_sanitize_filename(f"{line_number}_{speaker.lower()}.wav")] *)
Definition clip_filename (line_number : N) (speaker : string) : string :=
  _sanitize_filename (str line_number +:+ "_" +:+ lower speaker +:+ ".wav").

(** Effects of [generate_audio] in program order: the logging calls, the
    request sent to the provider and the file written from its response. *)
Inductive event :=
  | LogStarting
  | LogSkipNoVoice (line_number : N) (speaker : string)
  | LogOutOfBounds (speaker : string) (line_number : N)
  | LogGenerating (filename : string)
  | SpeechCreate (voice text : string)
  | WriteToFile (filename : string) (audio : list byte)
  | LogException (line_number : N) (speaker : string).

Section Driver.

(** The provider client: [client.audio.speech.create(model, voice,
    response_format, input)] from a client state, giving the next state
    and the audio of the response, or [None] when the call, or the write
    of its response to the file, raises. *)
Variable ST : Type.
Variable speech_create : ST → string → string → ST * option (list byte).

Record state := {
  index_tracker : gmap string nat;
  client : ST;
  trace : list event;
}.

Definition emit (st : state) (evs : list event) : state :=
  {| index_tracker := index_tracker st; client := client st;
     trace := trace st ++ evs |}.

(** [_generate_single_audio]: [true] when it returns, [false] when the
    provider call raises. *)
Definition _generate_single_audio (text filename voice : string) (c : ST)
  : ST * list event * bool :=
  match speech_create c voice text with
  | (c', Some audio) =>
      (c', [LogGenerating filename; SpeechCreate voice text;
            WriteToFile filename audio], true)
  | (c', None) =>
      (c', [LogGenerating filename; SpeechCreate voice text], false)
  end.

(** One iteration of the [for] loop of [generate_audio]. *)
Definition loop_body (p : PodcastScriptProcessor) (st : state)
    (line_number : N) (speaker : string) : result state :=
  match voice_map p !! speaker with
  | Some (String _ _ as voice) =>
      let speaker_lines := default [] (lines_per_speaker p !! speaker) in
      let speaker_index := default 0 (index_tracker st !! speaker) in
      if decide (length speaker_lines ≤ speaker_index) then
        Ok (emit st [LogOutOfBounds speaker line_number])
      else
        match speaker_lines !! speaker_index with
        | None => Raise IndexError
        | Some text =>
            match index_tracker st !! speaker with
            | None => Raise KeyError
            | Some i =>
                let tracker := <[speaker := i + 1]> (index_tracker st) in
                let filename := clip_filename line_number speaker in
                let '(c, evs, returned) :=
                  _generate_single_audio text filename voice (client st) in
                Ok {| index_tracker := tracker; client := c;
                      trace := trace st ++ evs ++
                        (if returned then []
                         else [LogException line_number speaker]) |}
            end
        end
  | _ => Ok (emit st [LogSkipNoVoice line_number speaker])
  end.

(** The loop over [enumerate(self.speaker_orders, start=1)]; an exception
    that the body does not catch ends it. *)
Fixpoint for_each (p : PodcastScriptProcessor) (st : state)
    (items : list (N * string)) : result state :=
  match items with
  | [] => Ok st
  | (line_number, speaker) :: rest =>
      st' ← loop_body p st line_number speaker;
      for_each p st' rest
  end.

(** [generate_audio].  The call that logs the completion stands, in the
    source, at the indentation of the class body and not in the method, so
    the method ends with its loop. *)
Definition generate_audio (p : PodcastScriptProcessor) (c : ST) : result state :=
  let index_tracker := list_to_map ((λ speaker, (speaker, 0)) <$> speaker_names p) in
  for_each p {| index_tracker := index_tracker; client := c;
                trace := [LogStarting] |}
           (enumerate 1 (speaker_orders p)).

End Driver.

Arguments index_tracker {ST} _.
Arguments client {ST} _.
Arguments trace {ST} _.
Arguments emit {ST} _ _.
Arguments _generate_single_audio {ST} _ _ _ _ _.
Arguments loop_body {ST} _ _ _ _ _.
Arguments for_each {ST} _ _ _ _.
Arguments generate_audio {ST} _ _ _.

(** The files written by the events of a trace, each with the audio of
    its last write; files that the output directory held before the run
    are not part of it. *)
Definition written (tr : list event) : gmap string (list byte) :=
  foldl (λ fs ev, match ev with
                  | WriteToFile filename audio => <[filename := audio]> fs
                  | _ => fs
                  end) ∅ tr.

(** The messages of [summary]: the line with the joined speaker names and
    one line per speaker with its number of lines. *)
Inductive summary_message :=
  | InfoSpeakersDetected (joined : string)
  | InfoLineCount (speaker : string) (num_lines : nat).

Definition summary (p : PodcastScriptProcessor) : list summary_message :=
  InfoSpeakersDetected (String.concat ", " (speaker_names p)) ::
  ((λ speaker,
      InfoLineCount speaker (length (default [] (lines_per_speaker p !! speaker))))
     <$> speaker_names p).

(** How the constructor and [main] end without a processor: an exception
    of [mkdir], the [ValueError] of the key test, an exception of the
    constructor of the client, the [FileNotFoundError] of [_read_script],
    or an exception of the parsing passes or of the driver. *)
Inductive failure :=
  | OutputDirError (e : exn)
  | NoApiKey
  | ClientError (e : exn)
  | ScriptNotFound
  | Uncaught (e : exn).

(** The key test of [__init__]: [getenv] is the value of the variable
    GROQ_API_KEY, consulted only when the argument is [None]; [None] as
    result stands for the [ValueError]. *)
Definition resolve_api_key (api_key getenv : option string) : option string :=
  let api_key := match api_key with None => getenv | Some _ => api_key end in
  match api_key with
  | Some (String _ _) => api_key
  | _ => None
  end.

(** [__init__] from its arguments and from what it finds outside:
    [mkdir] is the exception that [self.output_dir.mkdir(exist_ok=True)]
    raises, [None] when it returns; [Groq key] is the exception that
    [Groq(api_key=key)] raises, [None] when it returns the client;
    [script_file] is the content of the file at [script_path], [None] when
    there is no such file. *)
Definition __init__ (mkdir : option exn) (Groq : string → option exn)
    (script_file : option string)
    (voice_map : option (gmap string string)) (api_key getenv : option string)
  : failure + PodcastScriptProcessor :=
  match mkdir with
  | Some e => inl (OutputDirError e)
  | None =>
      match resolve_api_key api_key getenv with
      | None => inl NoApiKey
      | Some key =>
          match Groq key with
          | Some e => inl (ClientError e)
          | None =>
              match script_file with
              | None => inl ScriptNotFound
              | Some content =>
                  match init content voice_map with
                  | Ok p => inr p
                  | Raise e => inl (Uncaught e)
                  end
              end
          end
      end
  end.

(** The voice map of [main]. *)
Definition voice_mapping : gmap string string :=
  <["Alan" := "Atlas-PlayAI"]> (<["Arabella" := "Deedee-PlayAI"]> ∅).

Section Main.

Variable ST : Type.
Variable speech_create : ST → string → string → ST * option (list byte).

(** [main] after the parsing of its arguments: the messages of the
    summary and the state of the driver; [c] is the state of the client
    that [Groq] returns. *)
Definition main (mkdir : option exn) (Groq : string → option exn)
    (script_file api_key getenv : option string) (c : ST)
  : failure + (list summary_message * state ST) :=
  match __init__ mkdir Groq script_file (Some voice_mapping) api_key getenv with
  | inl f => inl f
  | inr processor =>
      let messages := summary processor in
      match generate_audio speech_create processor c with
      | Ok st => inr (messages, st)
      | Raise e => inl (Uncaught e)
      end
  end.

End Main.

Arguments main {ST} _ _ _ _ _ _ _.

End Synth.

(** ** cutting-podcast-workflow.py *)

Module Assemble.

Import PyStr.

(** [re.compile(r"(\d+)_([a-zA-Z]+)\.wav").match(filename)]: groups 1
    and 2, and the part of [filename] after the match. *)
Definition pattern (filename : string) : option (string * string * string) :=
  let '(digits, r1) := span isdigit filename in
  match digits with
  | EmptyString => None
  | _ =>
      r2 ← strip_prefix "_" r1;
      let '(letters, r3) := span isletter r2 in
      match letters with
      | EmptyString => None
      | _ => r4 ← strip_prefix ".wav" r3; Some (digits, letters, r4)
      end
  end.

(** [d[k] = v] on an insertion-ordered [dict]: a present key keeps its
    position, a new key goes last. *)
Fixpoint dict_set {V} (k : string) (v : V) (d : list (string * V))
  : list (string * V) :=
  match d with
  | [] => [(k, v)]
  | (k', v') :: d' =>
      if decide (k' = k) then (k, v) :: d' else (k', v') :: dict_set k v d'
  end.

Inductive message :=
  | InfoLoading
  | InfoLoaded (filename : string)
  | WarningCouldNotLoad (filename : string)
  | InfoConcatenating
  | DebugAdded (index : N) (speaker : string)
  | SuccessExported (output_filename : string).

(** The state of an [AudioConcatenator] over the segments of the audio
    library. *)
Record AudioConcatenator (AudioSegment : Type) := {
  audio_groups : gmap N (list (string * AudioSegment));
  printed : list message;
}.
Arguments audio_groups {AudioSegment} _.
Arguments printed {AudioSegment} _.

(** A [for] loop that updates an accumulator, with a body that may
    raise. *)
Fixpoint for_in {S A} (body : S → A → result S) (acc : S) (xs : list A)
  : result S :=
  match xs with
  | [] => Ok acc
  | x :: rest => acc' ← body acc x; for_in body acc' rest
  end.

Section Directory.

(** The audio library pydub is outside the program; its segments and the
    operations that the program calls are parameters:
    [AudioSegment.from_wav] on a file of the directory, [None] when it
    raises; [AudioSegment.empty()]; the operator [+] of
    [combined += audio], which brings its operands to a common format and
    may raise; and [combined_audio.export(output_path, format="wav")],
    which may raise. *)
Context {AudioSegment : Type}.
Variable from_wav : string → option AudioSegment.
Variable empty : AudioSegment.
Variable add : AudioSegment → AudioSegment → result AudioSegment.
Variable export : AudioSegment → string → result unit.

Definition print (st : AudioConcatenator AudioSegment) (m : message)
  : AudioConcatenator AudioSegment :=
  {| audio_groups := audio_groups st; printed := printed st ++ [m] |}.

(** One iteration of the loop of [load_audio_files]. *)
Definition load_file (st : AudioConcatenator AudioSegment) (filename : string)
  : result (AudioConcatenator AudioSegment) :=
  match pattern filename with
  | Some (group1, group2, _) =>
      match int group1 with
      | None => Raise ValueError
      | Some index =>
          let speaker := lower group2 in
          match from_wav filename with
          | Some audio =>
              let group := default [] (audio_groups st !! index) in
              Ok {| audio_groups :=
                      <[index := dict_set speaker audio group]> (audio_groups st);
                    printed := printed st ++ [InfoLoaded filename] |}
          | None => Ok (print st (WarningCouldNotLoad filename))
          end
      end
  | None => Ok st
  end.

Fixpoint load_loop (st : AudioConcatenator AudioSegment) (filenames : list string)
  : result (AudioConcatenator AudioSegment) :=
  match filenames with
  | [] => Ok st
  | filename :: rest => st' ← load_file st filename; load_loop st' rest
  end.

(** [load_audio_files] on a fresh concatenator; [listdir] is what
    [os.listdir(audio_dir)] returns. *)
Definition load_audio_files (listdir : list string)
  : result (AudioConcatenator AudioSegment) :=
  load_loop {| audio_groups := ∅; printed := [InfoLoading] |}
            (merge_sort String.le listdir).

(** The body of the inner loop of [concatenate_audio]:
    [combined += audio], then the message. *)
Definition add_group (index : N) (acc : AudioSegment * list message)
    (entry : string * AudioSegment) : result (AudioSegment * list message) :=
  combined ← add acc.1 entry.2;
  Ok (combined, acc.2 ++ [DebugAdded index entry.1]).

Definition concatenate_audio (st : AudioConcatenator AudioSegment)
  : result (AudioSegment * AudioConcatenator AudioSegment) :=
  let indices := merge_sort N.le (elements (dom (audio_groups st))) in
  acc ← for_in (λ acc index,
                  for_in (add_group index) acc
                         (default [] (audio_groups st !! index)))
               (empty, printed st ++ [InfoConcatenating]) indices;
  Ok (acc.1, {| audio_groups := audio_groups st; printed := acc.2 |}).

(** [export_final_audio]: the track written to [output_filename] in
    the directory, and the concatenator afterwards. *)
Definition export_final_audio (listdir : list string) (output_filename : string)
  : result (AudioSegment * AudioConcatenator AudioSegment) :=
  st ← load_audio_files listdir;
  r ← concatenate_audio st;
  _ ← export r.1 output_filename;
  Ok (r.1, print r.2 (SuccessExported output_filename)).

(** The script at the end of the file: [export_final_audio()] with the
    default name of its argument. *)
Definition __main__ (listdir : list string)
  : result (AudioSegment * AudioConcatenator AudioSegment) :=
  export_final_audio listdir "final_output.wav".

End Directory.

End Assemble.

Import PyStr Synth Assemble.

(** * Notions used to state the properties *)

(** The tag grammar of the script format, read off a line: after trimming,
    an opening bracket, one or more characters other than the closing
    bracket, then the closing bracket and a colon. *)
Fixpoint closes_tag (s : string) : bool :=
  match s with
  | EmptyString => false
  | String c s' =>
      if Ascii.eqb c "]"
      then match s' with String d _ => Ascii.eqb d ":" | EmptyString => false end
      else closes_tag s'
  end.

Definition tag_grammar (line : string) : bool :=
  match strip line with
  | String c (String d s) => Ascii.eqb c "[" && not_rbracket d && closes_tag s
  | _ => false
  end.

(** The tagged lines of a script read in one pass: speaker name and
    spoken text of every line in the tag grammar, in script order. *)
Definition tagged_lines (lines : list string) : list (string * string) :=
  omap (λ line, '(name, spoken) ← line_pattern (strip line);
                Some (name, strip spoken)) lines.

(** The texts of one speaker among tagged lines, in order. *)
Definition texts_of (speaker : string) (tagged : list (string * string)) : list string :=
  (filter (λ e, e.1 = speaker) tagged).*2.

(** The three-line script of the examples. *)
Definition nl : string := String LF EmptyString.

Definition script_hi_yo_bye : string :=
  "[A]: hi" +:+ nl +:+ "[B]: yo" +:+ nl +:+ "[A]: bye" +:+ nl.

(** A speaker whose voice-map entry passes the test [if not voice]. *)
Definition has_voice (vm : gmap string string) (speaker : string) : bool :=
  match vm !! speaker with
  | Some (String _ _) => true
  | _ => false
  end.

(** What the script asks the driver to process: one item per entry of
    [SpeakerOrder], with the text of that tagged line.  A script without any
    tagged line has no text for the entries that the pattern of
    [_extract_speaker_order] still finds. *)
Definition script_items (lines : list string) : list (string * option string) :=
  match _extract_speaker_names lines with
  | [] => (λ s, (s, None)) <$> _extract_speaker_order [] lines
  | _ => (λ e, (e.1, Some e.2)) <$> tagged_lines lines
  end.

Section Reference.

Context {ST : Type} (speech_create : ST → string → string → ST * option (list byte)).

(** The driver as one pass over the items, without cursors: the final
    client state and the events after [LogStarting]. *)
Fixpoint drive (vm : gmap string string) (c : ST) (k : N)
    (items : list (string * option string)) : ST * list event :=
  match items with
  | [] => (c, [])
  | (s, text) :: rest =>
      match vm !! s, text with
      | Some (String _ _ as voice), Some t =>
          let '(c', evs, returned) :=
            _generate_single_audio speech_create t (clip_filename k s) voice c in
          let '(c'', tr) := drive vm c' (N.succ k) rest in
          (c'', evs ++ (if returned then [] else [LogException k s]) ++ tr)
      | Some (String _ _), None =>
          let '(c', tr) := drive vm c (N.succ k) rest in
          (c', LogOutOfBounds s k :: tr)
      | _, _ =>
          let '(c', tr) := drive vm c (N.succ k) rest in
          (c', LogSkipNoVoice k s :: tr)
      end
  end.

End Reference.

(** The events that the item [(s, text)], numbered [k], may leave in the
    trace. *)
Definition item_event (vm : gmap string string) (k : N) (s : string)
    (text : option string) (ev : event) : Prop :=
  match vm !! s, text with
  | Some (String _ _ as voice), Some t =>
      ev = LogGenerating (clip_filename k s) ∨ ev = SpeechCreate voice t ∨
      (∃ audio, ev = WriteToFile (clip_filename k s) audio) ∨
      ev = LogException k s
  | Some (String _ _), None => ev = LogOutOfBounds s k
  | _, _ => ev = LogSkipNoVoice k s
  end.

(** The key that [load_audio_files] reads off a file name: the line number
    and the lowercased speaker token; [None] for a name that the pattern
    does not match. *)
Definition clip_key (filename : string) : option (N * string) :=
  '(group1, group2, _) ← pattern filename;
  index ← int group1;
  Some (index, lower group2).

Definition line_number_of (filename : string) : N :=
  default 0%N (fst <$> clip_key filename).

(** The anchored pattern of the specification: the match must end where
    the file name ends. *)
Definition fullmatch (filename : string) : bool :=
  match pattern filename with
  | Some (_, _, EmptyString) => true
  | _ => false
  end.

(** A file name that encodes a line number and a speaker: the name that
    the driver gives the clip of line [n] of a speaker whose name is made
    of ASCII letters. *)
Definition is_clip_name (filename : string) : Prop :=
  ∃ n speaker, speaker ≠ EmptyString ∧ PyStr.forallb isletter speaker = true ∧
               filename = clip_filename n speaker.

(** The set of characters [A-Za-z0-9_.-]. *)
Definition in_safe_set (c : ascii) : bool :=
  isletter c || isdigit c || Ascii.eqb c "_" || Ascii.eqb c "." || Ascii.eqb c "-".

(** The audio library of the examples: segments of one format, given by
    their sample data; [+] appends the data, the empty segment has none,
    and the export returns. *)
Definition bytes_add (a b : list byte) : result (list byte) := Ok (a ++ b).

Definition export_ok (a : list byte) (output_filename : string) : result unit :=
  Ok ().

(** Directories of the examples: what [AudioSegment.from_wav] gives for
    their files. *)
Definition three_clips (f : string) : option (list byte) :=
  if decide (f = "1_a.wav") then Some ["001"%byte]
  else if decide (f = "2_b.wav") then Some ["002"%byte]
  else if decide (f = "3_a.wav") then Some ["003"%byte]
  else None.

Definition backup_only (f : string) : option (list byte) :=
  if decide (f = "1_a.wav.bak") then Some ["004"%byte] else None.

Definition two_takes (f : string) : option (list byte) :=
  if decide (f = "01_a.wav") then Some ["001"%byte]
  else if decide (f = "1_a.wav") then Some ["002"%byte]
  else None.

(** [d[k]] on an insertion-ordered dictionary. *)
Fixpoint dict_get {V} (k : string) (d : list (string * V)) : option V :=
  match d with
  | [] => None
  | (k', v) :: d' => if decide (k' = k) then Some v else dict_get k d'
  end.

(** [audio_groups[index][speaker]] *)
Definition clip_at {AudioSegment} (st : AudioConcatenator AudioSegment)
    (index : N) (speaker : string) : option AudioSegment :=
  dict_get speaker (default [] (audio_groups st !! index)).

(** A name that the tag pattern can capture. *)
Definition good_name (name : string) : Prop :=
  name ≠ EmptyString ∧ PyStr.forallb not_rbracket name = true.

(** The speaker name of a line, when the line is in the tag grammar. *)
Definition tag_of (line : string) : option string :=
  fst <$> name_pattern (strip line).

(** The cursors after the tagged lines [done_]: the number of lines of
    each speaker that has a voice, zero for the other speakers. *)
Definition cursors_at {ST} (p : PodcastScriptProcessor)
    (done_ : list (string * string)) (st : state ST) : Prop :=
  ∀ s, index_tracker st !! s =
       if decide (s ∈ speaker_names p)
       then Some (if has_voice (voice_map p) s
                  then length (texts_of s done_) else 0)
       else None.

(** The entry that a file adds to the groups, when it is loaded. *)
Definition decoded {AudioSegment} (from_wav : string → option AudioSegment)
    (f : string) : option (N * (string * AudioSegment)) :=
  '(n, s) ← clip_key f; a ← from_wav f; Some (n, (s, a)).

Definition entry_key {AudioSegment} (e : N * (string * AudioSegment))
  : N * string := (e.1, e.2.1).

Definition put {AudioSegment} (gs : gmap N (list (string * AudioSegment)))
    (e : N * (string * AudioSegment)) : gmap N (list (string * AudioSegment)) :=
  <[e.1 := dict_set e.2.1 e.2.2 (default [] (gs !! e.1))]> gs.

(** What [load_audio_files] prints for a file. *)
Definition message_of {AudioSegment} (from_wav : string → option AudioSegment)
    (f : string) : option message :=
  _ ← clip_key f;
  Some (match from_wav f with
        | Some _ => InfoLoaded f
        | None => WarningCouldNotLoad f
        end).

(** The groups after [load_audio_files], and the clips of groups in the
    order of [concatenate_audio]: ascending index, each group in the
    order of its dictionary. *)
Definition loaded_groups {AudioSegment} (from_wav : string → option AudioSegment)
    (listdir : list string) : gmap N (list (string * AudioSegment)) :=
  foldl put ∅ (omap (decoded from_wav) (merge_sort String.le listdir)).

Definition clips_in_order {AudioSegment}
    (groups : gmap N (list (string * AudioSegment))) : list AudioSegment :=
  mjoin ((λ index, (default [] (groups !! index)).*2)
           <$> merge_sort N.le (elements (dom groups))).

(** What [export_final_audio] is specified by: the segments joined with
    [+] from the empty segment, left to right, and the result exported
    under the output name; the exception of the first call that raises
    otherwise. *)
Definition assemble {AudioSegment} (empty : AudioSegment)
    (add : AudioSegment → AudioSegment → result AudioSegment)
    (export : AudioSegment → string → result unit)
    (clips : list AudioSegment) (output_filename : string) : result AudioSegment :=
  combined ← for_in add empty clips;
  _ ← export combined output_filename;
  Ok combined.

(** The requests of a trace, in order: voice and text of every call of
    the provider. *)
Definition requests (tr : list event) : list (string * string) :=
  omap (λ ev, match ev with
              | SpeechCreate voice text => Some (voice, text)
              | _ => None
              end) tr.

(** The requests that tagged lines ask for: the voice of the speaker and
    the text, for the lines whose speaker has a voice. *)
Definition planned_requests (vm : gmap string string)
    (tagged : list (string * string)) : list (string * string) :=
  omap (λ e, match vm !! e.1 with
             | Some (String _ _ as voice) => Some (voice, e.2)
             | _ => None
             end) tagged.

(** The names of the files written by a trace, in the order of the
    writes. *)
Definition written_names (tr : list event) : list string :=
  omap (λ ev, match ev with
              | WriteToFile filename _ => Some filename
              | _ => None
              end) tr.

Definition first_char (s : string) : option ascii :=
  match s with
  | EmptyString => None
  | String c _ => Some c
  end.

Fixpoint last_char (s : string) : option ascii :=
  match s with
  | EmptyString => None
  | String c EmptyString => Some c
  | String _ s' => last_char s'
  end.

(** Characters that cannot leave the output directory or split a name:
    no path separator and no white space. *)
Definition path_safe (c : ascii) : bool :=
  negb (Ascii.eqb c "/") && negb (Ascii.eqb c "\") && negb (isspace c).

(** Speakers with a voice have names of ASCII letters. *)
Definition voiced_names_are_letters (vm : gmap string string) : Prop :=
  ∀ s, has_voice vm s = true →
       s ≠ EmptyString ∧ PyStr.forallb isletter s = true.

(** The numbers of lines that the summary reports, in its order. *)
Definition summary_counts (messages : list summary_message) : list nat :=
  omap (λ m, match m with
             | InfoLineCount _ num_lines => Some num_lines
             | _ => None
             end) messages.

(** A script for [main]: its second speaker differs from Alan by the case
    of the first letter. *)
Definition script_alan : string :=
  "[Alan]: hi" +:+ nl +:+ "[alan]: yo" +:+ nl +:+ "[Arabella]: bye" +:+ nl.

(** A processor whose speaker has lines but no cursor in the state
    [no_cursor]. *)
Definition no_cursor : state unit :=
  {| index_tracker := ∅; client := (); trace := [LogStarting] |}.

(** Providers and states of the examples. *)

(** A provider that answers every call with the same one-sample clip. *)
Definition always_answers (c : unit) (voice text : string) : unit * option (list byte) :=
  (c, Some ["001"%byte]).

(** A provider that counts its calls and answers the call number [c]
    with the one-sample clip of that number. *)
Definition numbers_calls (c : nat) (voice text : string) : nat * option (list byte) :=
  (S c, Some [match c with
              | 0 => "001"%byte
              | 1 => "002"%byte
              | _ => "003"%byte
              end]).

(** A provider that fails on every call. *)
Definition always_fails (c : unit) (voice text : string) : unit * option (list byte) :=
  (c, None).

(** A provider that counts its calls and fails on the second one. *)
Definition fails_on_second (c : nat) (voice text : string) : nat * option (list byte) :=
  (S c, if decide (c = 1) then None else Some ["001"%byte]).

Definition voices_A_B : gmap string string := <["A" := "v1"]> (<["B" := "v2"]> ∅).

(** The processor of the one-line script of speaker A saying hi. *)
Definition one_line : PodcastScriptProcessor :=
  {| voice_map := {["A" := "v1"]};
     lines := ["[A]: hi" +:+ nl];
     speaker_names := ["A"];
     speaker_orders := ["A"];
     lines_per_speaker := {["A" := ["hi"]]} |}.

Definition before_line_1 : state unit :=
  {| index_tracker := {["A" := 0]}; client := (); trace := [LogStarting] |}.

Definition after_line_1 : state unit :=
  {| index_tracker := {["A" := 1]}; client := ();
     trace := [LogStarting; LogGenerating "1_a.wav"; SpeechCreate "v1" "hi";
               LogException 1 "A"] |}.

(** * Properties *)

(** ** Strings *)

Section StringFacts.

Implicit Types (s p r : string) (c : ascii).

Lemma app_cons c s r : String c s +:+ r = String c (s +:+ r).
Proof. reflexivity. Qed.

Lemma app_nil_l r : EmptyString +:+ r = r.
Proof. reflexivity. Qed.

Lemma strip_prefix_spec p s r : strip_prefix p s = Some r ↔ s = p +:+ r.
Proof.
  revert s; induction p as [|a p IH]; intros s; simpl.
  - rewrite app_nil_l. split; [intros [= ->]|intros ->]; done.
  - rewrite app_cons. destruct s as [|b s]; [split; intros; discriminate|].
    destruct (Ascii.eqb_spec a b) as [->|Hne].
    + rewrite IH. split; [intros ->; done|intros [= ->]; done].
    + split; [discriminate|intros [= ? ?]; done].
Qed.

Lemma strip_prefix_app p r : strip_prefix p (p +:+ r) = Some r.
Proof. by apply strip_prefix_spec. Qed.

Lemma span_app q s a b : span q s = (a, b) → s = a +:+ b.
Proof.
  revert a b; induction s as [|c s IH]; intros a b; simpl.
  - by intros [= <- <-].
  - destruct (q c); [|by intros [= <- <-]].
    destruct (span q s) as [a' b']. intros [= <- <-].
    rewrite app_cons. f_equal. by apply IH.
Qed.

Lemma span_forallb q s a b : span q s = (a, b) → PyStr.forallb q a = true.
Proof.
  revert a b; induction s as [|c s IH]; intros a b; simpl.
  - by intros [= <- <-].
  - destruct (q c) eqn:Hc; [|by intros [= <- <-]].
    destruct (span q s) as [a' b']. intros [= <- <-].
    simpl. rewrite Hc. simpl. by eapply IH.
Qed.

(** A run of [q]-characters followed by a character outside [q] is
    exactly what [span] splits off. *)
Lemma span_stop q a c r :
  PyStr.forallb q a = true → q c = false →
  span q (a +:+ String c r) = (a, String c r).
Proof.
  intros Ha Hc. induction a as [|d a IH]; simpl in *.
  - rewrite ?app_nil_l. simpl. by rewrite Hc.
  - apply andb_prop in Ha as [Hd Ha]. rewrite ?app_cons. simpl.
    by rewrite Hd, IH.
Qed.

Lemma append_assoc s p r : (s +:+ p) +:+ r = s +:+ (p +:+ r).
Proof.
  induction s as [|c s IH]; [done|]. by rewrite !app_cons, IH.
Qed.

Lemma append_nil_r s : s +:+ EmptyString = s.
Proof. induction s as [|c s IH]; [done|]. by rewrite app_cons, IH. Qed.

Lemma map_append f s p : PyStr.map f (s +:+ p) = PyStr.map f s +:+ PyStr.map f p.
Proof.
  induction s as [|c s IH]; [done|]. rewrite app_cons. simpl.
  by rewrite IH.
Qed.

Lemma map_id_on f q s :
  (∀ c, q c = true → f c = c) → PyStr.forallb q s = true → PyStr.map f s = s.
Proof.
  intros Hf. induction s as [|c s IH]; simpl; [done|].
  intros [Hc Hs]%andb_prop. by rewrite Hf, IH.
Qed.

Lemma forallb_impl (q q' : ascii → bool) s :
  (∀ c, q c = true → q' c = true) →
  PyStr.forallb q s = true → PyStr.forallb q' s = true.
Proof.
  intros Hq. induction s as [|c s IH]; simpl; [done|].
  intros [Hc Hs]%andb_prop. by rewrite Hq, IH.
Qed.

Lemma forallb_map q f s :
  PyStr.forallb q (PyStr.map f s) = PyStr.forallb (λ c, q (f c)) s.
Proof. induction s as [|c s IH]; simpl; by rewrite ?IH. Qed.

End StringFacts.

(** ** Parsing *)

#[local] Arguments PyStr.strip_prefix : simpl never.
#[local] Arguments Ascii.eqb : simpl never.

Section ParseFacts.

Implicit Types (line name rest : string) (lines names : list string).

Lemma name_pattern_Some line name rest :
  name_pattern line = Some (name, rest) ↔
  line = "[" +:+ name +:+ "]:" +:+ rest ∧ good_name name.
Proof.
  unfold name_pattern, good_name. split.
  - destruct (strip_prefix "[" line) as [s|] eqn:E; simpl; [|done].
    apply strip_prefix_spec in E as ->.
    destruct (span not_rbracket s) as [a tl] eqn:Es.
    destruct a as [|c a]; [done|].
    destruct (strip_prefix "]:" tl) as [r|] eqn:Et; simpl; [|done].
    intros [= <- <-]. apply strip_prefix_spec in Et as ->.
    split_and!; [|done|by eapply span_forallb].
    by rewrite (span_app _ _ _ _ Es).
  - intros (-> & Hne & Hall). rewrite strip_prefix_app. simpl.
    change ("]:" +:+ rest) with (String "]" (String ":" rest)).
    rewrite span_stop by done.
    destruct name; [done|].
    change (String "]" (String ":" rest)) with ("]:" +:+ rest).
    by rewrite strip_prefix_app.
Qed.

Lemma closes_tag_spec s :
  closes_tag s = true ↔
  ∃ a rest, s = a +:+ "]:" +:+ rest ∧ PyStr.forallb not_rbracket a = true.
Proof.
  induction s as [|c s IH]; simpl.
  - split; [done|]. intros ([|??] & r & ? & ?); done.
  - destruct (Ascii.eqb_spec c "]") as [->|Hc].
    + split.
      * destruct s as [|d s]; [done|]. intros ->%Ascii.eqb_eq.
        by exists EmptyString, s.
      * intros ([|c a] & r & Hs & Ha).
        -- injection Hs as ->. by apply Ascii.eqb_eq.
        -- injection Hs as <- _. done.
    + rewrite IH. split.
      * intros (a & r & -> & Ha). exists (String c a), r. split; [done|].
        simpl. rewrite Ha. unfold not_rbracket.
        by destruct (Ascii.eqb_spec c "]").
      * intros ([|d a] & r & Hs & Ha).
        -- injection Hs as ? _. done.
        -- injection Hs as <- ->. exists a, r. split; [done|].
           by apply andb_prop in Ha as [_ ?].
Qed.

(** The hand-written recogniser of the grammar and the compiled
    pattern of the code accept the same lines. *)
Lemma tag_grammar_name_pattern line :
  tag_grammar line = true ↔ is_Some (name_pattern (strip line)).
Proof.
  unfold tag_grammar. generalize (strip line) as s. intros s. split.
  - destruct s as [|c [|d s]]; [done..|].
    intros [[->%Ascii.eqb_eq Hd]%andb_prop Hs]%andb_prop.
    apply closes_tag_spec in Hs as (a & r & -> & Ha).
    exists (String d a, r). apply name_pattern_Some. split; [done|].
    split; [done|]. simpl. by rewrite Hd.
  - intros [[name rest] [-> [Hne Hall]]%name_pattern_Some].
    destruct name as [|d a]; [done|]. simpl in Hall.
    apply andb_prop in Hall as [Hd Ha].
    rewrite !app_cons, app_nil_l, Ascii.eqb_refl, Hd. simpl.
    apply closes_tag_spec. by exists a, rest.
Qed.

Lemma tagged_lines_cons line lines :
  tagged_lines (line :: lines) =
  match name_pattern (strip line) with
  | Some (name, rest) =>
      (name, strip (span (λ c, negb (Ascii.eqb c LF)) rest).1) :: tagged_lines lines
  | None => tagged_lines lines
  end.
Proof.
  unfold tagged_lines at 1. simpl. unfold line_pattern.
  by destruct (name_pattern (strip line)) as [[name rest]|].
Qed.

Lemma tagged_lines_fst lines : (tagged_lines lines).*1 = omap tag_of lines.
Proof.
  induction lines as [|line lines IH]; [done|].
  rewrite tagged_lines_cons. simpl. unfold tag_of at 1.
  destruct (name_pattern (strip line)) as [[name rest]|]; simpl;
    [f_equal|]; exact IH.
Qed.

Lemma elem_of_speaker_names lines name :
  name ∈ _extract_speaker_names lines ↔ name ∈ (tagged_lines lines).*1.
Proof.
  unfold _extract_speaker_names.
  rewrite merge_sort_Permutation, elem_of_elements, elem_of_list_to_set.
  by rewrite tagged_lines_fst.
Qed.

Lemma speaker_names_good lines name :
  name ∈ _extract_speaker_names lines → good_name name.
Proof.
  rewrite elem_of_speaker_names, tagged_lines_fst, list_elem_of_omap.
  intros (line & _ & Hn). unfold tag_of in Hn.
  destruct (name_pattern (strip line)) as [[n r]|] eqn:E; [|done].
  injection Hn as <-. by apply name_pattern_Some in E as [_ ?].
Qed.

Lemma speaker_names_nil lines :
  _extract_speaker_names lines = [] ↔ tagged_lines lines = [].
Proof.
  split; intros H.
  - destruct (tagged_lines lines) as [|[n t] l] eqn:E; [done|].
    assert (n ∈ _extract_speaker_names lines) as Hn.
    { apply elem_of_speaker_names. rewrite E. simpl. left. }
    rewrite H in Hn. by apply elem_of_nil in Hn.
  - destruct (_extract_speaker_names lines) as [|n l] eqn:E; [done|].
    assert (n ∈ (tagged_lines lines).*1) as Hn.
    { apply elem_of_speaker_names. rewrite E. left. }
    rewrite H in Hn. by apply elem_of_nil in Hn.
Qed.

(** With the names of the script as alternatives, the pattern of
    [_extract_speaker_order] captures what the general pattern captures. *)
Lemma order_pattern_tag names line :
  names ≠ [] →
  (∀ name, name ∈ names → good_name name) →
  (∀ name rest, name_pattern line = Some (name, rest) → name ∈ names) →
  order_pattern names line = fst <$> name_pattern line.
Proof.
  intros Hne Hgood Hin. unfold order_pattern.
  assert (alternatives names = names) as -> by by destruct names.
  set (f := λ name, bool_decide (is_Some (strip_prefix ("[" +:+ name +:+ "]:") line))).
  assert (∀ name, name ∈ names → f name = true →
            ∃ rest, name_pattern line = Some (name, rest)) as Hf.
  { intros name Hname [rest Hr]%bool_decide_eq_true. exists rest.
    apply strip_prefix_spec in Hr. apply name_pattern_Some.
    split; [|by apply Hgood]. by rewrite Hr, !append_assoc. }
  destruct (List.find f names) as [m|] eqn:Efind.
  - apply find_some in Efind as [Hm%list_elem_of_In Hfm].
    by destruct (Hf m Hm Hfm) as [rest ->].
  - destruct (name_pattern line) as [[name rest]|] eqn:E; [|done].
    exfalso. pose proof (Hin _ _ eq_refl) as Hname.
    apply list_elem_of_In in Hname.
    pose proof (find_none _ _ Efind _ Hname) as Hfalse.
    apply name_pattern_Some in E as [-> _].
    unfold f in Hfalse. apply bool_decide_eq_false in Hfalse.
    apply Hfalse. exists rest. apply strip_prefix_spec.
    by rewrite !append_assoc.
Qed.

Lemma omap_ext_in {A B} (f g : A → option B) (l : list A) :
  (∀ x, x ∈ l → f x = g x) → omap f l = omap g l.
Proof.
  induction l as [|x l IH]; intros H; [done|]. csimpl.
  rewrite (H x) by left. rewrite IH; [done|].
  intros y Hy. apply H. by right.
Qed.

(** [SpeakerOrder] lists the speakers of the tagged lines, in script
    order, as soon as the script has one tagged line. *)
Lemma speaker_order_tagged lines :
  _extract_speaker_names lines ≠ [] →
  _extract_speaker_order (_extract_speaker_names lines) lines
  = (tagged_lines lines).*1.
Proof.
  intros Hne. rewrite tagged_lines_fst. unfold _extract_speaker_order.
  apply omap_ext_in. intros line Hline. unfold tag_of.
  apply order_pattern_tag; [done|apply speaker_names_good|].
  intros name rest E. apply elem_of_speaker_names.
  rewrite tagged_lines_fst. apply list_elem_of_omap.
  exists line. split; [done|]. unfold tag_of. by rewrite E.
Qed.

Lemma texts_of_cons s name text tagged :
  texts_of s ((name, text) :: tagged) =
  if decide (name = s) then text :: texts_of s tagged else texts_of s tagged.
Proof.
  unfold texts_of. rewrite filter_cons. simpl.
  by destruct (decide (name = s)).
Qed.

Lemma texts_of_app s t1 t2 :
  texts_of s (t1 ++ t2) = texts_of s t1 ++ texts_of s t2.
Proof. unfold texts_of. by rewrite filter_app, fmap_app. Qed.

Lemma lines_loop_spec lines (m : gmap string (list string)) :
  (∀ name, name ∈ (tagged_lines lines).*1 → is_Some (m !! name)) →
  ∃ m', lines_loop m lines = Ok m' ∧
    ∀ s, m' !! s = (λ l, l ++ texts_of s (tagged_lines lines)) <$> m !! s.
Proof.
  revert m. induction lines as [|line lines IH]; intros m Hdom.
  - exists m. split; [done|]. intros s. unfold texts_of. simpl.
    destruct (m !! s); simpl; by rewrite ?app_nil_r.
  - rewrite tagged_lines_cons in *. simpl. unfold line_pattern.
    destruct (name_pattern (strip line)) as [[name rest]|]; simpl.
    + destruct (Hdom name) as [l Hl]; [left|]. rewrite Hl.
      set (text := strip _).
      destruct (IH (<[name := l ++ [text]]> m)) as (m' & -> & Hm').
      { intros n Hn. destruct (decide (name = n)) as [->|Hnn].
        - rewrite lookup_insert_eq. eauto.
        - rewrite lookup_insert_ne by done. apply Hdom. by right. }
      exists m'. split; [done|]. intros s. rewrite Hm', texts_of_cons.
      destruct (decide (name = s)) as [->|Hns].
      * rewrite lookup_insert_eq, Hl. simpl. by rewrite <- app_assoc.
      * by rewrite lookup_insert_ne.
    + by apply IH.
Qed.

Lemma lookup_initial_dict {V} (v : V) names s :
  (list_to_map ((λ name, (name, v)) <$> names) : gmap string V) !! s
  = if decide (s ∈ names) then Some v else None.
Proof.
  induction names as [|n names IH].
  - rewrite decide_False by apply not_elem_of_nil. apply lookup_empty.
  - csimpl. destruct (decide (n = s)) as [->|Hne].
    + rewrite lookup_insert_eq. by rewrite decide_True by left.
    + rewrite lookup_insert_ne, IH by done.
      destruct (decide (s ∈ names)) as [Hs|Hs].
      * by rewrite decide_True by by right.
      * rewrite decide_False; [done|]. by intros [->|?]%elem_of_cons.
Qed.

(** What [__init__] computes: it never raises, and the per-speaker lists
    hold the texts of the tagged lines of each speaker of the script. *)
Lemma init_spec content vm :
  ∃ p, init content vm = Ok p ∧
    voice_map p = default ∅ vm ∧
    lines p = readlines content ∧
    speaker_names p = _extract_speaker_names (lines p) ∧
    speaker_orders p = _extract_speaker_order (speaker_names p) (lines p) ∧
    ∀ s, lines_per_speaker p !! s =
         if decide (s ∈ speaker_names p)
         then Some (texts_of s (tagged_lines (lines p))) else None.
Proof.
  unfold init, _read_script, _extract_lines_per_speaker.
  set (ls := readlines content).
  destruct (lines_loop_spec ls
    (list_to_map ((λ name, (name, [])) <$> _extract_speaker_names ls)))
    as (m & -> & Hm).
  { intros name Hname%elem_of_speaker_names.
    rewrite lookup_initial_dict. by rewrite decide_True. }
  eexists. split; [done|]. simpl. split_and!; try done.
  intros s. rewrite Hm, lookup_initial_dict.
  by destruct (decide (s ∈ _extract_speaker_names ls)).
Qed.

End ParseFacts.

(** ** The synthesis driver *)

Section DriverFacts.

Context {ST : Type} (speech_create : ST → string → string → ST * option (list byte)).

Implicit Types (p : PodcastScriptProcessor) (st : state ST).

(** The loop over the tagged lines [post], started with the cursors that
    the lines [pre] leave, emits what the single pass emits. *)
Lemma for_each_tagged p pre post st k :
  (∀ s, lines_per_speaker p !! s =
        if decide (s ∈ speaker_names p)
        then Some (texts_of s (pre ++ post)) else None) →
  (∀ s, s ∈ (pre ++ post).*1 → s ∈ speaker_names p) →
  cursors_at p pre st →
  ∃ st', for_each speech_create p st (enumerate k post.*1) = Ok st' ∧
    (client st', trace st') =
      (let '(c, tr) := drive speech_create (voice_map p) (client st) k
                             ((λ e, (e.1, Some e.2)) <$> post)
       in (c, trace st ++ tr)) ∧
    cursors_at p (pre ++ post) st'.
Proof.
  revert pre st k. induction post as [|[s t] post IH]; intros pre st k Hlps Hnames Hcur.
  - exists st. rewrite app_nil_r. simpl. by rewrite app_nil_r.
  - assert (s ∈ speaker_names p) as Hs.
    { apply Hnames. rewrite fmap_app, elem_of_app. right. left. }
    assert (∀ st1, cursors_at p (pre ++ [(s, t)]) st1 →
      ∃ st', for_each speech_create p st1 (enumerate (N.succ k) post.*1) = Ok st' ∧
        (client st', trace st') =
          (let '(c, tr) := drive speech_create (voice_map p) (client st1) (N.succ k)
                                 ((λ e, (e.1, Some e.2)) <$> post)
           in (c, trace st1 ++ tr)) ∧
        cursors_at p (pre ++ (s, t) :: post) st') as Hrest.
    { intros st1 Hst1. rewrite (cons_middle _ pre post), app_assoc in *.
      by apply IH. }
    pose proof (Hcur s) as Hcs. rewrite decide_True in Hcs by done.
    csimpl. unfold loop_body. unfold has_voice in Hcs.
    destruct (voice_map p !! s) as [[|a v]|] eqn:Hv.
    + destruct (Hrest (emit st [LogSkipNoVoice k s])) as (st' & Hfe & Htr & Hc').
      { intros s'. simpl. rewrite (Hcur s'), texts_of_app, texts_of_cons. simpl.
        unfold has_voice. destruct (decide (s = s')) as [<-|]; [by rewrite Hv|].
        by rewrite app_nil_r. }
      exists st'. split; [exact Hfe|]. split; [|done]. rewrite Htr. simpl.
      destruct (drive _ _ _ _ _) as [c tr]. by simplify_list_eq.
    + rewrite Hlps, (decide_True _ _ Hs), Hcs. simpl.
      rewrite texts_of_app, texts_of_cons, (decide_True _ _ eq_refl).
      rewrite decide_False by (rewrite length_app; simpl; lia).
      rewrite list_lookup_middle by done.
      unfold _generate_single_audio.
      destruct (speech_create (client st) (String a v) t) as [c1 [audio|]] eqn:Hcall.
      * edestruct (Hrest) as (st' & Hfe & Htr & Hc').
        2:{ exists st'. split; [exact Hfe|]. split; [|done]. rewrite Htr. simpl.
            destruct (drive _ _ _ _ _) as [c tr].
            by simplify_list_eq. }
        intros s'. simpl. rewrite texts_of_app, texts_of_cons.
        destruct (decide (s = s')) as [<-|Hne].
        -- rewrite lookup_insert_eq, decide_True by done. unfold has_voice.
           rewrite Hv, length_app. done.
        -- rewrite lookup_insert_ne by done. rewrite (Hcur s'). simpl.
           by rewrite app_nil_r.
      * edestruct (Hrest) as (st' & Hfe & Htr & Hc').
        2:{ exists st'. split; [exact Hfe|]. split; [|done]. rewrite Htr. simpl.
            destruct (drive _ _ _ _ _) as [c tr].
            by simplify_list_eq. }
        intros s'. simpl. rewrite texts_of_app, texts_of_cons.
        destruct (decide (s = s')) as [<-|Hne].
        -- rewrite lookup_insert_eq, decide_True by done. unfold has_voice.
           rewrite Hv, length_app. done.
        -- rewrite lookup_insert_ne by done. rewrite (Hcur s'). simpl.
           by rewrite app_nil_r.
    + destruct (Hrest (emit st [LogSkipNoVoice k s])) as (st' & Hfe & Htr & Hc').
      { intros s'. simpl. rewrite (Hcur s'), texts_of_app, texts_of_cons. simpl.
        unfold has_voice. destruct (decide (s = s')) as [<-|]; [by rewrite Hv|].
        by rewrite app_nil_r. }
      exists st'. split; [exact Hfe|]. split; [|done]. rewrite Htr. simpl.
      destruct (drive _ _ _ _ _) as [c tr]. by simplify_list_eq.
Qed.

(** Without any parsed line, every entry is skipped: for want of a
    voice, or else by the bounds check. *)
Lemma for_each_untagged p orders st k :
  (∀ s, lines_per_speaker p !! s = None) →
  ∃ st', for_each speech_create p st (enumerate k orders) = Ok st' ∧
    (client st', trace st') =
      (let '(c, tr) := drive speech_create (voice_map p) (client st) k
                             ((λ s, (s, None)) <$> orders)
       in (c, trace st ++ tr)) ∧
    index_tracker st' = index_tracker st.
Proof.
  intros Hlps. revert st k. induction orders as [|s orders IH]; intros st k.
  - exists st. simpl. by rewrite app_nil_r.
  - csimpl. unfold loop_body. rewrite Hlps. simpl.
    destruct (voice_map p !! s) as [[|a v]|] eqn:Hv.
    + destruct (IH (emit st [LogSkipNoVoice k s]) (N.succ k)) as (st' & Hfe & Htr & Hc').
      exists st'. split; [exact Hfe|]. split; [|done]. rewrite Htr. simpl.
      destruct (drive _ _ _ _ _) as [c tr]. by simplify_list_eq.
    + destruct (IH (emit st [LogOutOfBounds s k]) (N.succ k)) as (st' & Hfe & Htr & Hc').
      exists st'. split; [exact Hfe|]. split; [|done]. rewrite Htr. simpl.
      destruct (drive _ _ _ _ _) as [c tr]. by simplify_list_eq.
    + destruct (IH (emit st [LogSkipNoVoice k s]) (N.succ k)) as (st' & Hfe & Htr & Hc').
      exists st'. split; [exact Hfe|]. split; [|done]. rewrite Htr. simpl.
      destruct (drive _ _ _ _ _) as [c tr]. by simplify_list_eq.
Qed.

(** The driver on a parsed script: it returns, and its events and final
    cursors are those of the single pass over the items of the script. *)
Lemma generate_audio_drive content vm c0 p :
  init content vm = Ok p →
  ∃ st, generate_audio speech_create p c0 = Ok st ∧
    (client st, trace st) =
      (let '(c, tr) := drive speech_create (voice_map p) c0 1
                             (script_items (lines p))
       in (c, LogStarting :: tr)) ∧
    cursors_at p (tagged_lines (lines p)) st.
Proof.
  intros Hinit.
  destruct (init_spec content vm) as (p' & Hp' & _ & _ & Hnames & Horders & Hlps).
  rewrite Hinit in Hp'. injection Hp' as <-.
  assert (∀ s, s ∈ speaker_names p ↔ s ∈ (tagged_lines (lines p)).*1) as Hin.
  { intros s. rewrite Hnames. apply elem_of_speaker_names. }
  unfold generate_audio, script_items. rewrite Horders.
  destruct (decide (speaker_names p = [])) as [Hnil|Hne].
  - rewrite <- Hnames, Hnil.
    edestruct (for_each_untagged p (_extract_speaker_order [] (lines p)))
      as (st' & Hfe & Htr & Hc').
    { intros s. rewrite Hlps, Hnil.
      by rewrite decide_False by apply not_elem_of_nil. }
    exists st'. split; [exact Hfe|]. split; [exact Htr|].
    intros s. rewrite Hc', Hnil. simpl. apply lookup_empty.
  - assert (_extract_speaker_order (speaker_names p) (lines p)
            = (tagged_lines (lines p)).*1) as ->.
    { rewrite Hnames. apply speaker_order_tagged. by rewrite <- Hnames. }
    rewrite <- Hnames.
    match goal with
    | |- context [for_each _ _ ?st0 _] =>
        destruct (for_each_tagged p [] (tagged_lines (lines p)) st0 1)
          as (st' & Hfe & Htr & Hc')
    end.
    + intros s. by rewrite Hlps.
    + intros s Hs. by apply Hin.
    + intros s. cbn [index_tracker]. rewrite lookup_initial_dict.
      destruct (decide (s ∈ speaker_names p)); [|done].
      by destruct (has_voice _ _).
    + exists st'. split; [exact Hfe|]. split; [|exact Hc'].
      rewrite Htr. simpl. by destruct (speaker_names p).
Qed.

Lemma N_succ_add_nat (k : N) (i : nat) :
  (N.succ k + N.of_nat i = k + N.of_nat (S i))%N.
Proof. lia. Qed.

(** Every event of the single pass comes from one item. *)
Lemma drive_event_origin vm c k items ev :
  ev ∈ (drive speech_create vm c k items).2 →
  ∃ i s text, items !! i = Some (s, text) ∧
    item_event vm (k + N.of_nat i) s text ev.
Proof.
  revert c k. induction items as [|[s text] items IH]; intros c k; simpl.
  - by intros ?%elem_of_nil.
  - assert (∀ c', ev ∈ (drive speech_create vm c' (N.succ k) items).2 →
      ∃ i s0 text0, ((s, text) :: items) !! i = Some (s0, text0) ∧
        item_event vm (k + N.of_nat i) s0 text0 ev) as Hrest.
    { intros c' (i & s0 & text0 & Hi & Hev)%IH.
      exists (S i), s0, text0. split; [done|]. by rewrite <- N_succ_add_nat. }
    assert (item_event vm k s text ev →
      ∃ i s0 text0, ((s, text) :: items) !! i = Some (s0, text0) ∧
        item_event vm (k + N.of_nat i) s0 text0 ev) as Hhere.
    { intros Hev. exists 0, s, text. split; [done|]. by rewrite N.add_0_r. }
    unfold item_event in Hhere. unfold _generate_single_audio.
    destruct (vm !! s) as [[|a v]|] eqn:Hv.
    + destruct (drive _ _ _ _ _) as [c' tr] eqn:Ed. simpl.
      intros [->|Hin]%elem_of_cons; [by apply Hhere; destruct text|].
      apply (Hrest c). by rewrite Ed.
    + destruct text as [t|].
      * destruct (speech_create c (String a v) t) as [c1 [audio|]];
          destruct (drive _ _ _ _ _) as [c' tr] eqn:Ed; simpl;
          rewrite ?elem_of_cons, ?elem_of_app, ?elem_of_cons.
        -- intros [->|[->|[->|Hin]]]; [apply Hhere; eauto..|].
           apply (Hrest c1). by rewrite Ed.
        -- intros [->|[->|[->|Hin]]]; [apply Hhere; eauto..|].
           apply (Hrest c1). by rewrite Ed.
      * destruct (drive _ _ _ _ _) as [c' tr] eqn:Ed. simpl.
        intros [->|Hin]%elem_of_cons; [by apply Hhere|].
        apply (Hrest c). by rewrite Ed.
    + destruct (drive _ _ _ _ _) as [c' tr] eqn:Ed. simpl.
      intros [->|Hin]%elem_of_cons; [by apply Hhere; destruct text|].
      apply (Hrest c). by rewrite Ed.
Qed.

(** Every item leaves its events, whatever the provider answered on the
    items before it: a skipped item its warning, a processed item the
    request for its text, followed by the file or by the logged error. *)
Lemma drive_item_events vm c k items i s text :
  items !! i = Some (s, text) →
  let tr := (drive speech_create vm c k items).2 in
  let n := (k + N.of_nat i)%N in
  match vm !! s, text with
  | Some (String _ _ as voice), Some t =>
      LogGenerating (clip_filename n s) ∈ tr ∧ SpeechCreate voice t ∈ tr ∧
      (LogException n s ∈ tr ∨ ∃ audio, WriteToFile (clip_filename n s) audio ∈ tr)
  | Some (String _ _), None => LogOutOfBounds s n ∈ tr
  | _, _ => LogSkipNoVoice n s ∈ tr
  end.
Proof.
  revert c k i. induction items as [|[s0 text0] items IH]; intros c k i; [done|].
  destruct i as [|i].
  - intros [= -> ->]. simpl. rewrite N.add_0_r.
    unfold _generate_single_audio.
    destruct (vm !! s) as [[|a v]|] eqn:Hv.
    + destruct (drive _ _ _ _ _) as [c' tr]. destruct text; simpl; left.
    + destruct text as [t|].
      * destruct (speech_create c (String a v) t) as [c1 [audio|]];
          destruct (drive _ _ _ _ _) as [c' tr]; simpl.
        -- split_and!; [left|right; left|right; exists audio; do 2 right; left].
        -- split_and!; [left|right; left|left; do 2 right; left].
      * destruct (drive _ _ _ _ _) as [c' tr]. simpl. left.
    + destruct (drive _ _ _ _ _) as [c' tr]. destruct text; simpl; left.
  - intros Hi. simpl. rewrite <- N_succ_add_nat.
    assert (∀ c1 tr0, let tr := tr0 ++ (drive speech_create vm c1 (N.succ k) items).2 in
      match vm !! s, text with
      | Some (String _ _ as voice), Some t =>
          LogGenerating (clip_filename (N.succ k + N.of_nat i) s) ∈ tr ∧
          SpeechCreate voice t ∈ tr ∧
          (LogException (N.succ k + N.of_nat i) s ∈ tr ∨
           ∃ audio, WriteToFile (clip_filename (N.succ k + N.of_nat i) s) audio ∈ tr)
      | Some (String _ _), None => LogOutOfBounds s (N.succ k + N.of_nat i) ∈ tr
      | _, _ => LogSkipNoVoice (N.succ k + N.of_nat i) s ∈ tr
      end) as Hrest.
    { intros c1 tr0. pose proof (IH c1 (N.succ k) i Hi) as H. simpl in *.
      destruct (vm !! s) as [[|a v]|]; [|destruct text as [t|]|];
        rewrite ?elem_of_app; try tauto.
      destruct H as (? & ? & [?|[audio ?]]); split_and!; try tauto.
      right. exists audio. rewrite elem_of_app. tauto. }
    unfold _generate_single_audio.
    destruct (vm !! s0) as [[|a0 v0]|] eqn:Hv0.
    + specialize (Hrest c [LogSkipNoVoice k s0]).
      destruct (drive _ _ _ _ _) as [c' tr]. by destruct text0.
    + destruct text0 as [t0|].
      * destruct (speech_create c (String a0 v0) t0) as [c1 [audio|]].
        -- specialize (Hrest c1 [LogGenerating (clip_filename k s0);
             SpeechCreate (String a0 v0) t0; WriteToFile (clip_filename k s0) audio]).
           by destruct (drive _ _ _ _ _) as [c' tr].
        -- specialize (Hrest c1 [LogGenerating (clip_filename k s0);
             SpeechCreate (String a0 v0) t0; LogException k s0]).
           by destruct (drive _ _ _ _ _) as [c' tr].
      * specialize (Hrest c [LogOutOfBounds s0 k]).
        by destruct (drive _ _ _ _ _) as [c' tr].
    + specialize (Hrest c [LogSkipNoVoice k s0]).
      destruct (drive _ _ _ _ _) as [c' tr]. by destruct text0.
Qed.

End DriverFacts.

(** ** Clip file names *)

Section FilenameFacts.

Implicit Types (c : ascii) (s : string) (n : N).

Ltac by_cases_on c :=
  destruct c as [[] [] [] [] [] [] [] []]; vm_compute; try done; intros; try done.

Lemma isdigit_keeps c : isdigit c = true → keeps c = true.
Proof. by_cases_on c. Qed.

Lemma isletter_keeps c : isletter c = true → keeps c = true.
Proof. by_cases_on c. Qed.

Lemma isletter_lower c : isletter c = true → isletter (lower_char c) = true.
Proof. by_cases_on c. Qed.

Lemma lower_char_idemp c : lower_char (lower_char c) = lower_char c.
Proof. by_cases_on c. Qed.

(** On ASCII characters the class kept by the sanitizer is
    [A-Za-z0-9_.-]. *)
Lemma keeps_ascii c :
  (ord c < 128)%N →
  keeps c = isletter c || isdigit c || Ascii.eqb c "_" || Ascii.eqb c "."
            || Ascii.eqb c "-".
Proof. by_cases_on c. Qed.

Lemma string_of_uint_digits d :
  PyStr.forallb isdigit (NilEmpty.string_of_uint d) = true.
Proof. induction d; simpl; done. Qed.

Lemma str_digits n : PyStr.forallb isdigit (str n) = true.
Proof. apply string_of_uint_digits. Qed.

Lemma str_nonempty n : str n ≠ EmptyString.
Proof.
  unfold str. intros H.
  assert (N.to_uint n = Decimal.Nil) as Hnil.
  { destruct (N.to_uint n); simpl in H; done. }
  pose proof (DecimalN.Unsigned.of_to n) as Hn. rewrite Hnil in Hn.
  subst n. done.
Qed.

Lemma int_str n : int (str n) = Some n.
Proof.
  unfold int, str. rewrite NilEmpty.usu. simpl.
  by rewrite DecimalN.Unsigned.of_to.
Qed.

Lemma str_inj n n' : str n = str n' → n = n'.
Proof.
  intros H. assert (Some n = Some n') as [= ->]; [|done].
  by rewrite <- !int_str, H.
Qed.

(** [int] never raises on what [\d+] captures. *)
Lemma int_digits s : PyStr.forallb isdigit s = true → is_Some (int s).
Proof.
  unfold int. intros H.
  assert (is_Some (NilEmpty.uint_of_string s)) as [d ->]; [|by eexists].
  induction s as [|c s IH]; simpl in *; [by eexists|].
  apply andb_prop in H as [Hc Hs]. destruct (IH Hs) as [d ->].
  revert Hc. by_cases_on c; by eexists.
Qed.

Lemma sanitize_digits s :
  PyStr.forallb isdigit s = true → _sanitize_filename s = s.
Proof.
  apply map_id_on. intros c Hc. by rewrite isdigit_keeps.
Qed.

Lemma sanitize_letters s :
  PyStr.forallb isletter s = true → _sanitize_filename s = s.
Proof.
  apply map_id_on. intros c Hc. by rewrite isletter_keeps.
Qed.

Lemma lower_letters s :
  PyStr.forallb isletter s = true → PyStr.forallb isletter (lower s) = true.
Proof.
  unfold lower. rewrite forallb_map. apply forallb_impl, isletter_lower.
Qed.

Lemma lower_idemp s : lower (lower s) = lower s.
Proof.
  unfold lower. induction s as [|c s IH]; simpl; [done|].
  by rewrite lower_char_idemp, IH.
Qed.

(** The sanitizer leaves the numeric prefix, the separator and the
    extension of a clip name as they are. *)
Lemma clip_filename_eq n s :
  clip_filename n s = str n +:+ "_" +:+ _sanitize_filename (lower s) +:+ ".wav".
Proof.
  unfold clip_filename. unfold _sanitize_filename at 1.
  rewrite !map_append. fold (_sanitize_filename (str n)).
  fold (_sanitize_filename (lower s)). by rewrite sanitize_digits by apply str_digits.
Qed.

Lemma clip_filename_span n s :
  span isdigit (clip_filename n s)
  = (str n, "_" +:+ _sanitize_filename (lower s) +:+ ".wav").
Proof.
  rewrite clip_filename_eq.
  change ("_" +:+ ?r) with (String "_" r).
  by rewrite span_stop by (apply str_digits || done).
Qed.

Lemma clip_filename_inj_number n s n' s' :
  clip_filename n s = clip_filename n' s' → n = n'.
Proof.
  intros H. apply str_inj.
  pose proof (clip_filename_span n s) as H1.
  rewrite H, clip_filename_span in H1. by injection H1.
Qed.

(** The assembler's pattern reads back a clip name made from a line
    number and a speaker name of ASCII letters. *)
Lemma pattern_clip_filename n s :
  s ≠ EmptyString → PyStr.forallb isletter s = true →
  clip_filename n s = str n +:+ "_" +:+ lower s +:+ ".wav" ∧
  pattern (clip_filename n s) = Some (str n, lower s, EmptyString).
Proof.
  intros Hne Hs.
  assert (clip_filename n s = str n +:+ "_" +:+ lower s +:+ ".wav") as Heq.
  { by rewrite clip_filename_eq, sanitize_letters by by apply lower_letters. }
  split; [done|]. unfold pattern. rewrite clip_filename_span.
  rewrite sanitize_letters by by apply lower_letters.
  pose proof (str_nonempty n). destruct (str n) as [|d ds] eqn:E; [done|].
  rewrite strip_prefix_app. simpl.
  change (".wav" +:+ EmptyString) with (String "." "wav").
  rewrite span_stop by (by apply lower_letters || done).
  by destruct s as [|c s].
Qed.

End FilenameFacts.

(** ** What the synthesis driver does with a script *)

Section DriverClaims.

Context {ST : Type} (speech_create : ST → string → string → ST * option (list byte)).

Implicit Types (p : PodcastScriptProcessor) (st : state ST).

Lemma script_items_fst content vm p :
  init content vm = Ok p → speaker_orders p = (script_items (lines p)).*1.
Proof.
  intros Hinit.
  destruct (init_spec content vm) as (p' & Hp' & _ & _ & Hnames & Horders & _).
  rewrite Hinit in Hp'. injection Hp' as <-.
  rewrite Horders, Hnames. unfold script_items.
  destruct (_extract_speaker_names (lines p)) as [|n names] eqn:En.
  - rewrite <- list_fmap_compose. by rewrite list_fmap_id.
  - rewrite <- En, speaker_order_tagged by by rewrite En.
    by rewrite <- list_fmap_compose.
Qed.

Lemma script_items_tagged lines i s t :
  tagged_lines lines !! i = Some (s, t) →
  script_items lines !! i = Some (s, Some t).
Proof.
  intros Hi. unfold script_items.
  destruct (_extract_speaker_names lines) as [|n names] eqn:En.
  - apply speaker_names_nil in En. by rewrite En in Hi.
  - by rewrite list_lookup_fmap, Hi.
Qed.

Lemma has_voice_None vm s : vm !! s = None → has_voice vm s = false.
Proof. unfold has_voice. by intros ->. Qed.

Lemma has_voice_empty vm s : vm !! s = Some EmptyString → has_voice vm s = false.
Proof. unfold has_voice. by intros ->. Qed.

Lemma written_snoc tr ev :
  written (tr ++ [ev]) =
  match ev with
  | WriteToFile filename audio => <[filename := audio]> (written tr)
  | _ => written tr
  end.
Proof. unfold written. by rewrite foldl_app. Qed.

Lemma written_lookup_Some tr f a :
  written tr !! f = Some a → WriteToFile f a ∈ tr.
Proof.
  induction tr as [|ev tr IH] using rev_ind.
  { unfold written. simpl. by rewrite lookup_empty. }
  rewrite written_snoc, elem_of_app, list_elem_of_singleton.
  destruct ev as [| | | | |f' a'|]; try (intros ?%IH; tauto).
  destruct (decide (f' = f)) as [->|Hne].
  - rewrite lookup_insert_eq. intros [= ->]. by right.
  - rewrite lookup_insert_ne by done. intros ?%IH; tauto.
Qed.

(** A speaker that fails the voice test: each of its lines leaves the
    warning and nothing else, and its cursor stays at its initial value. *)
Lemma skipped_speaker content vm c0 p st s :
  init content vm = Ok p →
  generate_audio speech_create p c0 = Ok st →
  has_voice (voice_map p) s = false →
  (∀ i, speaker_orders p !! i = Some s →
     LogSkipNoVoice (N.of_nat (S i)) s ∈ trace st ∧
     (LogGenerating (clip_filename (N.of_nat (S i)) s) ∉ trace st) ∧
     written (trace st) !! clip_filename (N.of_nat (S i)) s = None) ∧
  default 0 (index_tracker st !! s) = 0.
Proof.
  intros Hinit Hrun Hs.
  destruct (generate_audio_drive speech_create content vm c0 p Hinit)
    as (st' & Hrun' & Htr & Hcur).
  rewrite Hrun in Hrun'. injection Hrun' as <-.
  destruct (drive _ _ _ _ _) as [c tr] eqn:Ed. injection Htr as _ Htr.
  assert (tr = (drive speech_create (voice_map p) c0 1 (script_items (lines p))).2)
    as Htr' by by rewrite Ed.
  split.
  - intros i Hi. rewrite (script_items_fst _ _ _ Hinit), list_lookup_fmap in Hi.
    destruct (script_items (lines p) !! i) as [[s' text]|] eqn:Hitem; [|done].
    injection Hi as ->. rewrite Htr.
    assert (∀ f, (LogGenerating f ∈ tr ∨ ∃ a, WriteToFile f a ∈ tr) →
              f ≠ clip_filename (N.of_nat (S i)) s) as Hno.
    { intros f Hf Heq. subst f.
      assert (∃ ev, ev ∈ tr ∧
        (ev = LogGenerating (clip_filename (N.of_nat (S i)) s) ∨
         ∃ a, ev = WriteToFile (clip_filename (N.of_nat (S i)) s) a))
        as (ev & Hev & Hshape).
      { destruct Hf as [?|[a ?]]; eauto. }
      rewrite Htr' in Hev.
      apply drive_event_origin in Hev as (j & s' & text' & Hj & Hev).
      unfold item_event in Hev. unfold has_voice in Hs.
      assert (i = j) as <-.
      { destruct (voice_map p !! s') as [[|a' v']|]; [|destruct text'|];
          try (destruct Hshape as [->|[? ->]]; done).
        assert (clip_filename (N.of_nat (S i)) s = clip_filename (1 + N.of_nat j) s')
          as Hf'.
        { destruct Hshape as [->|[? ->]], Hev as [?|[?|[[? ?]|?]]]; congruence. }
        apply clip_filename_inj_number in Hf'. lia. }
      rewrite Hitem in Hj. injection Hj as <- <-.
      destruct (voice_map p !! s) as [[|a' v']|]; try done;
        destruct Hshape as [->|[? ->]]; done. }
    split_and!.
    + right. pose proof (drive_item_events speech_create (voice_map p) c0 1
        (script_items (lines p)) i s text Hitem) as H.
      simpl in H. rewrite <- Htr' in H. unfold has_voice in Hs.
      replace (1 + N.of_nat i)%N with (N.of_nat (S i)) in H by lia.
      destruct (voice_map p !! s) as [[|a' v']|]; try done; by destruct text.
    + intros [?|Hin]%elem_of_cons; [done|]. eapply Hno; [|done]. by left.
    + destruct (written _ !! _) as [a|] eqn:Hw; [|done].
      apply written_lookup_Some in Hw.
      apply elem_of_cons in Hw as [?|Hin]; [done|].
      exfalso. eapply Hno; [|done]. right. by exists a.
  - rewrite (Hcur s), Hs. by destruct (decide _).
Qed.

Lemma loop_body_voice_ext p p' st n s :
  lines_per_speaker p = lines_per_speaker p' →
  has_voice (voice_map p) s = false → has_voice (voice_map p') s = false →
  loop_body speech_create p st n s = loop_body speech_create p' st n s.
Proof.
  unfold loop_body, has_voice. intros _.
  destruct (voice_map p !! s) as [[|??]|], (voice_map p' !! s) as [[|??]|];
    done.
Qed.

(** C3: on the script of three lines of speakers A, B, A, with a voice
    for A and for B, when the provider answers the three calls, the driver
    requests the texts hi, yo and bye in that order, each with the voice
    of its speaker, and writes exactly the three files 1_a.wav, 2_b.wav
    and 3_a.wav, each one holding the audio that the provider returned
    for its text. *)
Theorem three_lines_three_clips (vm : gmap string string) (v1 v2 : string)
    (c0 c1 c2 c3 : ST) (a1 a2 a3 : list byte) :
  vm !! "A" = Some v1 → vm !! "B" = Some v2 →
  v1 ≠ EmptyString → v2 ≠ EmptyString →
  speech_create c0 v1 "hi" = (c1, Some a1) →
  speech_create c1 v2 "yo" = (c2, Some a2) →
  speech_create c2 v1 "bye" = (c3, Some a3) →
  ∃ p st,
    init script_hi_yo_bye (Some vm) = Ok p ∧
    generate_audio speech_create p c0 = Ok st ∧
    trace st =
      [LogStarting;
       LogGenerating "1_a.wav"; SpeechCreate v1 "hi"; WriteToFile "1_a.wav" a1;
       LogGenerating "2_b.wav"; SpeechCreate v2 "yo"; WriteToFile "2_b.wav" a2;
       LogGenerating "3_a.wav"; SpeechCreate v1 "bye"; WriteToFile "3_a.wav" a3] ∧
    written (trace st) =
      <["3_a.wav" := a3]> (<["2_b.wav" := a2]> (<["1_a.wav" := a1]> ∅)) ∧
    client st = c3.
Proof.
  intros HA HB Hv1 Hv2 H1 H2 H3.
  destruct (init_spec script_hi_yo_bye (Some vm)) as (p & Hinit & Hvm & Hlines & _).
  destruct (generate_audio_drive speech_create _ _ c0 p Hinit) as (st & Hrun & Htr & _).
  rewrite Hlines, Hvm in Htr. simpl in Htr.
  assert (script_items (readlines script_hi_yo_bye)
          = [("A", Some "hi"); ("B", Some "yo"); ("A", Some "bye")]) as Hitems
    by (vm_compute; reflexivity).
  rewrite Hitems in Htr. simpl in Htr. rewrite HA, HB in Htr.
  destruct v1 as [|x1 v1]; [done|]. destruct v2 as [|x2 v2]; [done|].
  unfold _generate_single_audio in Htr. rewrite H1, H2, H3 in Htr.
  injection Htr as Hc Htr.
  exists p, st. split_and!; [done..| | |done]; by rewrite Htr.
Qed.

Lemma script_items_nonempty lines :
  tagged_lines lines ≠ [] →
  script_items lines = (λ e, (e.1, Some e.2)) <$> tagged_lines lines.
Proof.
  intros Hne. unfold script_items.
  destruct (_extract_speaker_names lines) eqn:En; [|done].
  by apply speaker_names_nil in En.
Qed.

(** C4, as the code has it: one iteration advances the cursor of its
    speaker by one exactly when it sends a request to the provider, and it
    sends the request exactly when the line passes the voice test and the
    bounds check; the request then carries the voice of the speaker and
    the text under the cursor.  The cursor is advanced before the call, so
    it is advanced as well when the call fails and the error is logged.
    Without a request no cursor changes. *)
Theorem cursor_advances_with_request p st n s st' :
  loop_body speech_create p st n s = Ok st' →
  ∃ evs, trace st' = trace st ++ evs ∧
    ((∃ voice text, SpeechCreate voice text ∈ evs) ↔
       has_voice (voice_map p) s = true ∧
       default 0 (index_tracker st !! s)
         < length (default [] (lines_per_speaker p !! s))) ∧
    (has_voice (voice_map p) s = true →
     default 0 (index_tracker st !! s)
       < length (default [] (lines_per_speaker p !! s)) →
     ∃ i voice text,
       index_tracker st !! s = Some i ∧
       voice_map p !! s = Some voice ∧
       default [] (lines_per_speaker p !! s) !! i = Some text ∧
       SpeechCreate voice text ∈ evs ∧
       index_tracker st' = <[s := i + 1]> (index_tracker st)) ∧
    ((∃ voice text, SpeechCreate voice text ∈ evs) →
       ∃ i, index_tracker st !! s = Some i ∧
            index_tracker st' = <[s := i + 1]> (index_tracker st)) ∧
    ((∀ voice text, SpeechCreate voice text ∉ evs) →
       index_tracker st' = index_tracker st) ∧
    (LogException n s ∈ evs → ∃ voice text, SpeechCreate voice text ∈ evs).
Proof.
  unfold loop_body, has_voice.
  destruct (voice_map p !! s) as [[|a v]|].
  - intros [= <-]. exists [LogSkipNoVoice n s]. simpl.
    split_and!; [done| |done| |done|].
    + split; [|by intros [? _]].
      intros (? & ? & [?|?%elem_of_nil]%elem_of_cons); done.
    + intros (? & ? & [?|?%elem_of_nil]%elem_of_cons); done.
    + intros [?|?%elem_of_nil]%elem_of_cons; done.
  - set (speaker_lines := default [] (lines_per_speaker p !! s)).
    destruct (decide _) as [Hge|Hlt].
    { intros [= <-]. exists [LogOutOfBounds s n]. simpl.
      split_and!; [done| | | |done|].
      + split; [|intros [_ ?]; lia].
        intros (? & ? & [?|?%elem_of_nil]%elem_of_cons); done.
      + intros _ ?. lia.
      + intros (? & ? & [?|?%elem_of_nil]%elem_of_cons); done.
      + intros [?|?%elem_of_nil]%elem_of_cons; done. }
    destruct (speaker_lines !! _) as [text|] eqn:Ht; [|done].
    destruct (index_tracker st !! s) as [i|] eqn:Hi; [|done].
    simpl in Ht, Hlt.
    unfold _generate_single_audio.
    destruct (speech_create (client st) (String a v) text) as [c [audio|]];
      intros [= <-]; eexists; (split; [reflexivity|]); simpl.
    + split_and!.
      * split; [intros _; split; [done|lia]|]. intros _. eexists _, _. right. left.
      * intros _ _. exists i, (String a v), text.
        split_and!; [done..| |done]. right. left.
      * intros _. by exists i.
      * intros Hno. exfalso. eapply Hno. right. left.
      * intros _. eexists _, _. right. left.
    + split_and!.
      * split; [intros _; split; [done|lia]|]. intros _. eexists _, _. right. left.
      * intros _ _. exists i, (String a v), text.
        split_and!; [done..| |done]. right. left.
      * intros _. by exists i.
      * intros Hno. exfalso. eapply Hno. right. left.
      * intros _. eexists _, _. right. left.
  - intros [= <-]. exists [LogSkipNoVoice n s]. simpl.
    split_and!; [done| |done| |done|].
    + split; [|by intros [? _]].
      intros (? & ? & [?|?%elem_of_nil]%elem_of_cons); done.
    + intros (? & ? & [?|?%elem_of_nil]%elem_of_cons); done.
    + intros [?|?%elem_of_nil]%elem_of_cons; done.
Qed.

(** C5: whatever the provider answers, the driver returns, and every
    tagged line whose speaker has a voice gets its request, followed by
    its file or by the logged error of that line; on a script of three
    voiced lines a provider that fails on the second call only leaves the
    clips of lines 1 and 3. *)
Theorem provider_failure_is_caught content vm c0 :
  ∃ p st, init content vm = Ok p ∧ generate_audio speech_create p c0 = Ok st ∧
    (∀ i s t voice,
       tagged_lines (lines p) !! i = Some (s, t) →
       voice_map p !! s = Some voice → voice ≠ EmptyString →
       LogGenerating (clip_filename (N.of_nat (S i)) s) ∈ trace st ∧
       SpeechCreate voice t ∈ trace st ∧
       (LogException (N.of_nat (S i)) s ∈ trace st ∨
        ∃ audio, WriteToFile (clip_filename (N.of_nat (S i)) s) audio ∈ trace st)) ∧
    (∀ s1 t1 s2 t2 s3 t3 v1 v2 v3 c1 c2 c3 a1 a3,
       tagged_lines (lines p) = [(s1, t1); (s2, t2); (s3, t3)] →
       voice_map p !! s1 = Some v1 → voice_map p !! s2 = Some v2 →
       voice_map p !! s3 = Some v3 →
       v1 ≠ EmptyString → v2 ≠ EmptyString → v3 ≠ EmptyString →
       speech_create c0 v1 t1 = (c1, Some a1) →
       speech_create c1 v2 t2 = (c2, None) →
       speech_create c2 v3 t3 = (c3, Some a3) →
       trace st =
         [LogStarting;
          LogGenerating (clip_filename 1 s1); SpeechCreate v1 t1;
          WriteToFile (clip_filename 1 s1) a1;
          LogGenerating (clip_filename 2 s2); SpeechCreate v2 t2;
          LogException 2 s2;
          LogGenerating (clip_filename 3 s3); SpeechCreate v3 t3;
          WriteToFile (clip_filename 3 s3) a3] ∧
       written (trace st) =
         <[clip_filename 3 s3 := a3]> (<[clip_filename 1 s1 := a1]> ∅)).
Proof.
  destruct (init_spec content vm) as (p & Hinit & _).
  destruct (generate_audio_drive speech_create _ _ c0 p Hinit) as (st & Hrun & Htr & _).
  exists p, st. split_and!; [done..| |].
  - intros i s t voice Hi Hv Hne.
    destruct (drive _ _ _ _ _) as [c tr] eqn:Ed. injection Htr as _ ->.
    pose proof (drive_item_events speech_create (voice_map p) c0 1
      (script_items (lines p)) i s (Some t) (script_items_tagged _ _ _ _ Hi)) as H.
    simpl in H. rewrite Ed, Hv in H. simpl in H.
    replace (1 + N.of_nat i)%N with (N.of_nat (S i)) in H by lia.
    destruct voice as [|a v]; [done|].
    destruct H as (H1 & H2 & H3). split_and!; [by right..|].
    destruct H3 as [?|[audio ?]]; [left; by right|right; exists audio; by right].
  - intros s1 t1 s2 t2 s3 t3 v1 v2 v3 c1 c2 c3 a1 a3 Htag Hv1 Hv2 Hv3 Hn1 Hn2 Hn3 H1 H2 H3.
    rewrite script_items_nonempty, Htag in Htr by by rewrite Htag.
    simpl in Htr. rewrite Hv1, Hv2, Hv3 in Htr.
    destruct v1 as [|x1 v1]; [done|]. destruct v2 as [|x2 v2]; [done|].
    destruct v3 as [|x3 v3]; [done|].
    unfold _generate_single_audio in Htr. rewrite H1, H2, H3 in Htr.
    injection Htr as _ Htr. by rewrite Htr.
Qed.

(** C7: a speaker of the script without voice-map entry has each of its
    lines skipped with the warning, no request and no file for it, and
    its cursor left at zero, and the run returns; only lines of speakers
    that fail the voice test get that warning.  On the script of the
    three lines of A, B, A with a voice for A alone, and a provider that
    answers, the files written are 1_a.wav and 3_a.wav. *)
Theorem speaker_without_voice_is_skipped :
  (∀ content vm c0,
     ∃ p st, init content vm = Ok p ∧ generate_audio speech_create p c0 = Ok st ∧
       (∀ s, voice_map p !! s = None →
          (∀ i, speaker_orders p !! i = Some s →
             LogSkipNoVoice (N.of_nat (S i)) s ∈ trace st ∧
             (LogGenerating (clip_filename (N.of_nat (S i)) s) ∉ trace st) ∧
             written (trace st) !! clip_filename (N.of_nat (S i)) s = None) ∧
          default 0 (index_tracker st !! s) = 0) ∧
       (∀ n s, LogSkipNoVoice n s ∈ trace st →
          has_voice (voice_map p) s = false ∧
          ∃ i, n = N.of_nat (S i) ∧ speaker_orders p !! i = Some s)) ∧
  (∀ (vm : gmap string string) v1 c0,
     (∀ c voice text, ∃ c' audio, speech_create c voice text = (c', Some audio)) →
     vm !! "A" = Some v1 → v1 ≠ EmptyString → vm !! "B" = None →
     ∃ p st a1 a3,
       init script_hi_yo_bye (Some vm) = Ok p ∧
       generate_audio speech_create p c0 = Ok st ∧
       trace st =
         [LogStarting;
          LogGenerating "1_a.wav"; SpeechCreate v1 "hi"; WriteToFile "1_a.wav" a1;
          LogSkipNoVoice 2 "B";
          LogGenerating "3_a.wav"; SpeechCreate v1 "bye"; WriteToFile "3_a.wav" a3] ∧
       written (trace st) = <["3_a.wav" := a3]> (<["1_a.wav" := a1]> ∅)).
Proof.
  split.
  - intros content vm c0.
    destruct (init_spec content vm) as (p & Hinit & _).
    destruct (generate_audio_drive speech_create _ _ c0 p Hinit)
      as (st & Hrun & Htr & _).
    exists p, st. split_and!; [done..| |].
    + intros s Hs. eapply skipped_speaker; [done..|]. by apply has_voice_None.
    + intros n s Hin.
      destruct (drive _ _ _ _ _) as [c tr] eqn:Ed. injection Htr as _ Htr.
      rewrite Htr in Hin. apply elem_of_cons in Hin as [?|Hin]; [done|].
      assert (tr = (drive speech_create (voice_map p) c0 1 (script_items (lines p))).2)
        as -> by by rewrite Ed.
      apply drive_event_origin in Hin as (i & s' & text & Hi & Hev).
      assert (speaker_orders p !! i = Some s') as Hord.
      { by rewrite (script_items_fst _ _ _ Hinit), list_lookup_fmap, Hi. }
      unfold item_event in Hev. unfold has_voice.
      destruct (voice_map p !! s') as [[|a v]|] eqn:Hv.
      * injection Hev as -> ->. rewrite Hv. split; [done|].
        exists i. split; [lia|done].
      * destruct text; [destruct Hev as [?|[?|[[? ?]|?]]]|]; done.
      * injection Hev as -> ->. rewrite Hv. split; [done|].
        exists i. split; [lia|done].
  - intros vm v1 c0 Hprov HA Hv1 HB.
    destruct (init_spec script_hi_yo_bye (Some vm)) as (p & Hinit & Hvm & Hlines & _).
    destruct (generate_audio_drive speech_create _ _ c0 p Hinit) as (st & Hrun & Htr & _).
    rewrite Hlines, Hvm in Htr. simpl in Htr.
    assert (script_items (readlines script_hi_yo_bye)
            = [("A", Some "hi"); ("B", Some "yo"); ("A", Some "bye")]) as Hitems
      by (vm_compute; reflexivity).
    rewrite Hitems in Htr. simpl in Htr. rewrite HA, HB in Htr.
    destruct v1 as [|x1 v1]; [done|].
    unfold _generate_single_audio in Htr.
    destruct (Hprov c0 (String x1 v1) "hi") as (c1 & a1 & H1). rewrite H1 in Htr.
    destruct (Hprov c1 (String x1 v1) "bye") as (c3 & a3 & H3). rewrite H3 in Htr.
    injection Htr as _ Htr.
    exists p, st, a1, a3. split_and!; [done..| |]; by rewrite Htr.
Qed.

Lemma for_each_voice_ext p p' st items :
  lines_per_speaker p = lines_per_speaker p' →
  (∀ s, voice_map p !! s = voice_map p' !! s ∨
        (has_voice (voice_map p) s = false ∧ has_voice (voice_map p') s = false)) →
  for_each speech_create p st items = for_each speech_create p' st items.
Proof.
  intros Hlps Hvm. revert st. induction items as [|[n s] items IH]; intros st; [done|].
  simpl.
  assert (loop_body speech_create p st n s = loop_body speech_create p' st n s) as ->.
  { destruct (Hvm s) as [Heq|[H1 H2]]; [|by apply loop_body_voice_ext].
    unfold loop_body. by rewrite Heq, Hlps. }
  destruct (loop_body speech_create p' st n s) as [st'|e]; [|done]. apply IH.
Qed.

(** C10: an entry of the voice map whose voice is the empty string
    changes nothing: the run is the run on the map without that entry,
    event for event and cursor for cursor; each line of that speaker is
    skipped with the warning, no request is sent and no file is written
    for it, and the cursor of the speaker stays at zero. *)
Theorem empty_voice_is_no_voice content (vm : gmap string string) s c0 :
  vm !! s = Some EmptyString →
  (init content (Some vm) ≫= λ p, generate_audio speech_create p c0)
  = (init content (Some (delete s vm)) ≫= λ p, generate_audio speech_create p c0) ∧
  ∃ p st, init content (Some vm) = Ok p ∧
    generate_audio speech_create p c0 = Ok st ∧
    (∀ i, speaker_orders p !! i = Some s →
       LogSkipNoVoice (N.of_nat (S i)) s ∈ trace st ∧
       (LogGenerating (clip_filename (N.of_nat (S i)) s) ∉ trace st) ∧
       written (trace st) !! clip_filename (N.of_nat (S i)) s = None) ∧
    default 0 (index_tracker st !! s) = 0.
Proof.
  intros Hs. split.
  - unfold init. simpl.
    destruct (_extract_lines_per_speaker _ _) as [lps|e]; [|done].
    simpl. unfold generate_audio. simpl. apply for_each_voice_ext; [done|].
    intros s'. simpl. destruct (decide (s = s')) as [<-|Hne].
    + right. split; [by apply has_voice_empty|].
      apply has_voice_None, lookup_delete_eq.
    + left. by rewrite lookup_delete_ne.
  - destruct (init_spec content (Some vm)) as (p & Hinit & Hvm & _).
    destruct (generate_audio_drive speech_create _ _ c0 p Hinit)
      as (st & Hrun & _).
    exists p, st. split_and!; [done..| |];
      eapply skipped_speaker; try done; rewrite Hvm; by apply has_voice_empty.
Qed.

End DriverClaims.

(** *** Instances with concrete providers *)

Lemma init_one_line : init ("[A]: hi" +:+ nl) (Some {["A" := "v1"]}) = Ok one_line.
Proof. vm_compute. reflexivity. Qed.

Lemma three_lines_three_clips_witness :
  ∃ p st,
    init script_hi_yo_bye (Some voices_A_B) = Ok p ∧
    generate_audio numbers_calls p 0 = Ok st ∧
    trace st =
      [LogStarting;
       LogGenerating "1_a.wav"; SpeechCreate "v1" "hi";
       WriteToFile "1_a.wav" ["001"%byte];
       LogGenerating "2_b.wav"; SpeechCreate "v2" "yo";
       WriteToFile "2_b.wav" ["002"%byte];
       LogGenerating "3_a.wav"; SpeechCreate "v1" "bye";
       WriteToFile "3_a.wav" ["003"%byte]] ∧
    written (trace st) =
      <["3_a.wav" := ["003"%byte]]>
        (<["2_b.wav" := ["002"%byte]]> (<["1_a.wav" := ["001"%byte]]> ∅)) ∧
    client st = 3.
Proof.
  apply (three_lines_three_clips numbers_calls voices_A_B "v1" "v2" 0 1 2 3
           ["001"%byte] ["002"%byte] ["003"%byte]).
  - reflexivity.
  - reflexivity.
  - discriminate.
  - discriminate.
  - reflexivity.
  - reflexivity.
  - reflexivity.
Defined.

(** The claim of C4 as stated fails: the provider call of the only line
    fails, the error is logged, and the cursor of the speaker is at 1. *)
Lemma cursor_advanced_on_failure :
  generate_audio always_fails one_line () =
  Ok {| index_tracker := {["A" := 1]}; client := ();
        trace := [LogStarting; LogGenerating "1_a.wav"; SpeechCreate "v1" "hi";
                  LogException 1 "A"] |}.
Proof. vm_compute. reflexivity. Qed.

Lemma cursor_advances_with_request_witness :
  loop_body always_fails one_line before_line_1 1 "A" = Ok after_line_1 ∧
  ∃ evs, trace after_line_1 = trace before_line_1 ++ evs ∧
    ((∃ voice text, SpeechCreate voice text ∈ evs) ↔
       has_voice (voice_map one_line) "A" = true ∧
       default 0 (index_tracker before_line_1 !! "A")
         < length (default [] (lines_per_speaker one_line !! "A"))) ∧
    (has_voice (voice_map one_line) "A" = true →
     default 0 (index_tracker before_line_1 !! "A")
       < length (default [] (lines_per_speaker one_line !! "A")) →
     ∃ i voice text,
       index_tracker before_line_1 !! "A" = Some i ∧
       voice_map one_line !! "A" = Some voice ∧
       default [] (lines_per_speaker one_line !! "A") !! i = Some text ∧
       SpeechCreate voice text ∈ evs ∧
       index_tracker after_line_1 = <["A" := i + 1]> (index_tracker before_line_1)) ∧
    ((∃ voice text, SpeechCreate voice text ∈ evs) →
       ∃ i, index_tracker before_line_1 !! "A" = Some i ∧
            index_tracker after_line_1 = <["A" := i + 1]> (index_tracker before_line_1)) ∧
    ((∀ voice text, SpeechCreate voice text ∉ evs) →
       index_tracker after_line_1 = index_tracker before_line_1) ∧
    (LogException 1 "A" ∈ evs → ∃ voice text, SpeechCreate voice text ∈ evs).
Proof.
  split; [vm_compute; reflexivity|].
  apply (cursor_advances_with_request always_fails one_line before_line_1 1 "A"
           after_line_1).
  vm_compute. reflexivity.
Defined.

Lemma provider_failure_is_caught_witness :
  ∃ p st, init script_hi_yo_bye (Some voices_A_B) = Ok p ∧
    generate_audio fails_on_second p 0 = Ok st ∧
    written (trace st)
    = <["3_a.wav" := ["001"%byte]]> (<["1_a.wav" := ["001"%byte]]> ∅).
Proof.
  destruct (provider_failure_is_caught fails_on_second script_hi_yo_bye
              (Some voices_A_B) 0) as (p & st & Hinit & Hrun & _ & Hthree).
  exists p, st. split; [exact Hinit|]. split; [exact Hrun|].
  pose proof Hinit as Hp. vm_compute in Hp. injection Hp as <-.
  apply (Hthree "A" "hi" "B" "yo" "A" "bye" "v1" "v2" "v1" 1 2 3
                ["001"%byte] ["001"%byte]);
    first [reflexivity | discriminate].
Defined.

Lemma speaker_without_voice_is_skipped_witness :
  ∃ p st a1 a3,
    init script_hi_yo_bye (Some {["A" := "v1"]}) = Ok p ∧
    generate_audio always_answers p () = Ok st ∧
    trace st =
      [LogStarting;
       LogGenerating "1_a.wav"; SpeechCreate "v1" "hi"; WriteToFile "1_a.wav" a1;
       LogSkipNoVoice 2 "B";
       LogGenerating "3_a.wav"; SpeechCreate "v1" "bye"; WriteToFile "3_a.wav" a3] ∧
    written (trace st) = <["3_a.wav" := a3]> (<["1_a.wav" := a1]> ∅).
Proof.
  apply (proj2 (speaker_without_voice_is_skipped always_answers) {["A" := "v1"]} "v1" ()).
  - intros c voice text. by exists c, ["001"%byte].
  - reflexivity.
  - discriminate.
  - reflexivity.
Defined.

Lemma empty_voice_is_no_voice_witness :
  (<["B" := EmptyString]> voices_A_B) !! "B" = Some EmptyString ∧
  (init script_hi_yo_bye (Some (<["B" := EmptyString]> voices_A_B))
     ≫= λ p, generate_audio always_answers p ())
  = (init script_hi_yo_bye (Some (delete "B" (<["B" := EmptyString]> voices_A_B)))
       ≫= λ p, generate_audio always_answers p ()).
Proof.
  split; [reflexivity|].
  apply (empty_voice_is_no_voice always_answers script_hi_yo_bye
           (<["B" := EmptyString]> voices_A_B) "B" ()).
  reflexivity.
Defined.

(** ** Grouping a list by a numeric key *)

Section Regroup.

Context {A : Type} (key : A → N).

Lemma bind_ext_in {B C} (f g : B → list C) (l : list B) :
  (∀ x, x ∈ l → f x = g x) → l ≫= f = l ≫= g.
Proof.
  induction l as [|x l IH]; intros H; [done|]. csimpl.
  rewrite (H x) by left. rewrite IH; [done|].
  intros y Hy. apply H. by right.
Qed.

(** Taking, for each key in turn, the elements with that key rearranges
    the list. *)
Lemma bind_filter_perm (K : list N) (xs : list A) :
  NoDup K → (∀ x, x ∈ xs → key x ∈ K) →
  K ≫= (λ k, filter (λ x, key x = k) xs) ≡ₚ xs.
Proof.
  revert xs. induction K as [|k K IH]; intros xs Hnd Hin.
  - destruct xs as [|x xs]; [done|].
    by destruct (not_elem_of_nil (key x)); apply Hin; left.
  - apply NoDup_cons in Hnd as [Hk Hnd]. csimpl.
    etrans; [|apply (filter_app_complement (λ x, key x = k) xs)].
    apply Permutation_app; [done|].
    rewrite <- (IH (filter (λ x, key x ≠ k) xs) Hnd).
    + erewrite bind_ext_in; [done|]. intros k' Hk'. simpl.
      rewrite list_filter_filter. apply list_filter_iff.
      intros x. split; [|by intros [? ?]]. intros ->. split; [done|].
      by intros ->.
    + intros x [Hx Hxs]%list_elem_of_filter.
      by pose proof (Hin x Hxs) as [?|?]%elem_of_cons.
Qed.

Lemma same_key_sorted (k : N) (xs : list A) :
  Forall (λ x, key x = k) xs →
  StronglySorted (λ a b, key a ≤ key b)%N xs.
Proof.
  induction 1 as [|x xs Hx Hxs IH]; constructor; [done|].
  eapply Forall_impl; [done|]. simpl. intros y ->. by rewrite Hx.
Qed.

(** And in ascending order of the keys, the result is sorted by key. *)
Lemma bind_filter_sorted (K : list N) (xs : list A) :
  StronglySorted N.le K →
  StronglySorted (λ a b, key a ≤ key b)%N
                 (K ≫= (λ k, filter (λ x, key x = k) xs)).
Proof.
  induction 1 as [|k K HK IH Hle]; csimpl; [constructor|].
  apply StronglySorted_app_2; [| |done].
  - intros x y [Hx _]%list_elem_of_filter Hy.
    apply list_elem_of_bind in Hy as (k' & Hy & Hk').
    apply list_elem_of_filter in Hy as [Hy _].
    rewrite Hx, Hy. by eapply (proj1 (Forall_forall _ _) Hle).
  - apply (same_key_sorted k). apply Forall_forall.
    by intros x [? _]%list_elem_of_filter.
Qed.

Lemma StronglySorted_filter {B} (R : relation B) (P : B → Prop)
    `{∀ x, Decision (P x)} (l : list B) :
  StronglySorted R l → StronglySorted R (filter P l).
Proof.
  induction 1 as [|x l Hl IH Hx]; [constructor|].
  rewrite filter_cons. destruct (decide (P x)); [|done].
  constructor; [done|]. apply Forall_forall.
  intros y [_ Hy]%list_elem_of_filter. by eapply (proj1 (Forall_forall _ _) Hx).
Qed.

Lemma mjoin_fmap_filter {B} (h : N → list B) (P : N → Prop)
    `{∀ n, Decision (P n)} (K : list N) :
  (∀ n, n ∈ K → ¬ P n → h n = []) →
  mjoin (h <$> filter P K) = mjoin (h <$> K).
Proof.
  induction K as [|k K IH]; intros Hh; [done|].
  rewrite filter_cons. csimpl.
  assert (mjoin (h <$> filter P K) = mjoin (h <$> K)) as IH'.
  { apply IH. intros n Hn. apply Hh. by right. }
  destruct (decide (P k)) as [Hk|Hk]; csimpl; rewrite IH'; [done|].
  by rewrite (Hh k) by (done || left).
Qed.

Lemma mjoin_omap_bind {B C} (w : B → option (list C)) (F : N → list B) (K : list N) :
  mjoin (omap w (K ≫= F)) = mjoin ((λ n, mjoin (omap w (F n))) <$> K).
Proof.
  induction K as [|k K IH]; [done|]. csimpl.
  by rewrite omap_app, join_app, IH.
Qed.

(** Sorting does not depend on the order of its input. *)
Lemma merge_sort_perm (l1 l2 : list string) :
  l1 ≡ₚ l2 → merge_sort String.le l1 = merge_sort String.le l2.
Proof.
  intros Hp. apply (Sorted_unique String.le); [apply Sorted_merge_sort; apply _..|].
  by rewrite !merge_sort_Permutation.
Qed.

Lemma merge_sort_filter (P : string → Prop) `{∀ x, Decision (P x)} (l : list string) :
  merge_sort String.le (filter P l) = filter P (merge_sort String.le l).
Proof.
  apply (Sorted_unique String.le).
  - apply Sorted_merge_sort; apply _.
  - apply StronglySorted_Sorted, StronglySorted_filter.
    apply StronglySorted_merge_sort; apply _.
  - by rewrite !merge_sort_Permutation.
Qed.

End Regroup.

(** ** The assembler *)

Lemma bind_Ok {A B} (f : A → result B) (a : A) : Ok a ≫= f = f a.
Proof. reflexivity. Qed.

Lemma bind_Raise {A B} (f : A → result B) (e : exn) : Raise e ≫= f = Raise e.
Proof. reflexivity. Qed.

Lemma fmap_Ok {A B} (f : A → B) (a : A) : f <$> Ok a = Ok (f a).
Proof. reflexivity. Qed.

Lemma for_in_cons {S A} (body : S → A → result S) acc x (xs : list A) :
  for_in body acc (x :: xs) = body acc x ≫= λ acc', for_in body acc' xs.
Proof. reflexivity. Qed.

Lemma for_in_app {S A} (body : S → A → result S) acc (xs ys : list A) :
  for_in body acc (xs ++ ys) = for_in body acc xs ≫= λ acc', for_in body acc' ys.
Proof.
  revert acc. induction xs as [|x xs IH]; intros acc; [done|].
  rewrite <- app_comm_cons, !for_in_cons.
  destruct (body acc x) as [acc'|e]; [|done]. rewrite !bind_Ok. apply IH.
Qed.

Lemma omap_bind_join {A B C} (w : B → option C) (F : A → list B) (K : list A) :
  omap w (K ≫= F) = mjoin ((λ n, omap w (F n)) <$> K).
Proof.
  induction K as [|k K IH]; [done|]. csimpl. by rewrite omap_app, IH.
Qed.

Section AssemblerFacts.

Context {AudioSegment : Type}.
Variable from_wav : string → option AudioSegment.
Variable empty : AudioSegment.
Variable add : AudioSegment → AudioSegment → result AudioSegment.
Variable export : AudioSegment → string → result unit.

Implicit Types (st : AudioConcatenator AudioSegment) (f filename : string)
  (gs : gmap N (list (string * AudioSegment)))
  (E : list (N * (string * AudioSegment))).

Lemma pattern_Some f g1 g2 r :
  pattern f = Some (g1, g2, r) →
  f = g1 +:+ "_" +:+ g2 +:+ ".wav" +:+ r ∧
  g1 ≠ EmptyString ∧ PyStr.forallb isdigit g1 = true ∧
  g2 ≠ EmptyString ∧ PyStr.forallb isletter g2 = true.
Proof.
  unfold pattern.
  destruct (span isdigit f) as [d r1] eqn:E1.
  destruct d as [|c d]; [done|].
  destruct (strip_prefix "_" r1) as [r2|] eqn:E2; simpl; [|done].
  destruct (span isletter r2) as [l r3] eqn:E3.
  destruct l as [|c' l]; [done|].
  destruct (strip_prefix ".wav" r3) as [r4|] eqn:E4; simpl; [|done].
  intros [= <- <- <-].
  apply strip_prefix_spec in E2 as ->. apply strip_prefix_spec in E4 as ->.
  split_and!; [|done|by eapply span_forallb|done|by eapply span_forallb].
  rewrite (span_app _ _ _ _ E1). f_equal. f_equal.
  by rewrite (span_app _ _ _ _ E3).
Qed.

(** [int] never raises on group 1, so a file has a key exactly when the
    pattern matches its name. *)
Lemma clip_key_is_Some f : is_Some (clip_key f) ↔ is_Some (pattern f).
Proof.
  unfold clip_key. split.
  - destruct (pattern f); [by eexists|]. by intros [? ?].
  - intros [[[g1 g2] r] Hp]. rewrite Hp. simpl.
    apply pattern_Some in Hp as (_ & _ & Hd & _).
    destruct (int_digits _ Hd) as [n ->]. by eexists.
Qed.

Lemma load_file_spec st f :
  load_file from_wav st f =
  Ok {| audio_groups := from_option (put (audio_groups st)) (audio_groups st) (decoded from_wav f);
        printed := printed st ++ option_list (message_of from_wav f) |}.
Proof.
  unfold load_file, decoded, message_of, clip_key.
  destruct (pattern f) as [[[g1 g2] r]|] eqn:Hp; simpl.
  - apply pattern_Some in Hp as (_ & _ & Hd & _).
    destruct (int_digits _ Hd) as [n ->]. simpl.
    by destruct (from_wav f).
  - rewrite app_nil_r. by destruct st.
Qed.

Lemma load_loop_spec st fs :
  load_loop from_wav st fs =
  Ok {| audio_groups := foldl put (audio_groups st) (omap (decoded from_wav) fs);
        printed := printed st ++ omap (message_of from_wav) fs |}.
Proof.
  revert st. induction fs as [|f fs IH]; intros st.
  - simpl. rewrite app_nil_r. by destruct st.
  - simpl. rewrite load_file_spec. simpl. rewrite IH. simpl.
    f_equal. f_equal.
    + by destruct (decoded from_wav f).
    + rewrite <- app_assoc. by destruct (message_of from_wav f).
Qed.

Lemma dict_set_keys {V} k (v : V) d :
  (dict_set k v d).*1 = if decide (k ∈ d.*1) then d.*1 else d.*1 ++ [k].
Proof.
  induction d as [|[k' v'] d IH]; [done|]. csimpl.
  destruct (decide (k' = k)) as [->|Hne]; csimpl.
  - by rewrite decide_True by left.
  - rewrite IH. destruct (decide (k ∈ d.*1)) as [Hin|Hin].
    + by rewrite decide_True by by right.
    + rewrite decide_False; [done|]. by intros [?|?]%elem_of_cons.
Qed.

Lemma dict_set_NoDup {V} k (v : V) d : NoDup d.*1 → NoDup (dict_set k v d).*1.
Proof.
  intros Hd. rewrite dict_set_keys. destruct (decide _); [done|].
  apply NoDup_app. split_and!; [done| |apply NoDup_singleton].
  by intros x Hx ->%list_elem_of_singleton.
Qed.

Lemma dict_set_fresh {V} k (v : V) d : k ∉ d.*1 → dict_set k v d = d ++ [(k, v)].
Proof.
  induction d as [|[k' v'] d IH]; [done|]. simpl.
  intros Hk. rewrite decide_False by (intros ->; apply Hk; left).
  rewrite IH; [done|]. intros ?. apply Hk. by right.
Qed.

Lemma dict_get_set {V} k k' (v : V) d :
  dict_get k' (dict_set k v d) = if decide (k = k') then Some v else dict_get k' d.
Proof.
  induction d as [|[k0 v0] d IH]; simpl.
  - by destruct (decide (k = k')).
  - destruct (decide (k0 = k)) as [->|Hne]; simpl.
    + by destruct (decide (k = k')).
    + rewrite IH. destruct (decide (k0 = k')) as [->|]; [|done].
      by rewrite decide_False by done.
Qed.

Lemma for_in_add_group index acc (entries : list (string * AudioSegment)) :
  fst <$> for_in (add_group add index) acc entries = for_in add acc.1 entries.*2.
Proof.
  revert acc. induction entries as [|e entries IH]; intros acc; [done|].
  rewrite fmap_cons, !for_in_cons.
  change (add_group add index acc e)
    with (add acc.1 e.2 ≫= λ combined, Ok (combined, acc.2 ++ [DebugAdded index e.1])).
  destruct (add acc.1 e.2) as [c|err]; [|done].
  rewrite !bind_Ok. apply IH.
Qed.

Lemma for_in_groups (grp : N → list (string * AudioSegment)) acc indices :
  fst <$> for_in (λ acc index, for_in (add_group add index) acc (grp index))
                 acc indices
  = for_in add acc.1 (mjoin ((λ n, (grp n).*2) <$> indices)).
Proof.
  revert acc. induction indices as [|n indices IH]; intros acc; [done|].
  rewrite fmap_cons. change (mjoin (?x :: ?l)) with (x ++ mjoin l).
  rewrite for_in_cons, for_in_app, <- (for_in_add_group n).
  destruct (for_in (add_group add n) acc (grp n)) as [acc'|err]; [|done].
  rewrite fmap_Ok, !bind_Ok. apply IH.
Qed.

(** The track of [concatenate_audio]: the clips of the groups in
    ascending order of their index, each group in the order of its
    dictionary, joined with [+] from the empty segment. *)
Lemma concatenate_audio_track st :
  fst <$> concatenate_audio empty add st = for_in add empty (clips_in_order (audio_groups st)).
Proof.
  unfold concatenate_audio, clips_in_order. cbv zeta.
  rewrite <- (for_in_groups (λ n, default [] (audio_groups st !! n))
                (empty, printed st ++ [InfoConcatenating])).
  by destruct (for_in _ _ _).
Qed.

Lemma concatenate_audio_groups st r :
  concatenate_audio empty add st = Ok r → audio_groups r.2 = audio_groups st.
Proof.
  unfold concatenate_audio. cbv zeta.
  destruct (for_in _ _ _) as [acc|e]; [|done]. by intros [= <-].
Qed.

Lemma foldl_put_snoc gs E e : foldl put gs (E ++ [e]) = put (foldl put gs E) e.
Proof. by rewrite foldl_app. Qed.

(** Last write wins: the clip under a key is the one of the last entry
    put under that key. *)
Lemma foldl_put_clip E gs n s :
  dict_get s (default [] (foldl put gs E !! n)) =
  match last (filter (λ e, entry_key e = (n, s)) E) with
  | Some e => Some e.2.2
  | None => dict_get s (default [] (gs !! n))
  end.
Proof.
  induction E as [|e E IH] using rev_ind; [done|].
  rewrite foldl_put_snoc, filter_app. unfold put at 1.
  destruct e as [m [s' a]]. rewrite filter_cons, filter_nil. simpl.
  destruct (decide (m = n)) as [->|Hmn].
  - rewrite lookup_insert_eq. simpl. rewrite dict_get_set.
    destruct (decide (s' = s)) as [->|Hs].
    + rewrite decide_True by done. by rewrite last_snoc.
    + rewrite decide_False by (unfold entry_key; simpl; congruence).
      by rewrite app_nil_r.
  - rewrite lookup_insert_ne by done.
    rewrite decide_False by (unfold entry_key; simpl; congruence).
    by rewrite app_nil_r.
Qed.

(** A group never holds two clips under one speaker. *)
Lemma foldl_put_NoDup E gs :
  (∀ n d, gs !! n = Some d → NoDup d.*1) →
  ∀ n d, foldl put gs E !! n = Some d → NoDup d.*1.
Proof.
  revert gs. induction E as [|e E IH]; intros gs Hgs; [done|].
  simpl. apply IH. intros n d. unfold put.
  destruct (decide (e.1 = n)) as [->|Hne].
  - rewrite lookup_insert_eq. intros [= <-]. apply dict_set_NoDup.
    destruct (gs !! n) as [d'|] eqn:Hd; simpl; [by eapply Hgs|constructor].
  - rewrite lookup_insert_ne by done. apply Hgs.
Qed.

Lemma foldl_put_dom E gs :
  dom (foldl put gs E) = dom gs ∪ list_to_set E.*1.
Proof.
  revert gs. induction E as [|e E IH]; intros gs; simpl.
  - by rewrite union_empty_r_L.
  - rewrite IH. unfold put. rewrite dom_insert_L.
    by rewrite (comm_L (∪) {[e.1]}), <- (assoc_L (∪)).
Qed.

(** Without two entries under one key, a group lists its entries in the
    order in which they were put. *)
Lemma foldl_put_group E n :
  NoDup (entry_key <$> E) →
  default [] (foldl put ∅ E !! n) = snd <$> filter (λ e, e.1 = n) E.
Proof.
  induction E as [|e E IH] using rev_ind; intros Hnd.
  - simpl. by rewrite lookup_empty.
  - rewrite fmap_app in Hnd. apply NoDup_app in Hnd as (Hnd & Hfresh & _).
    specialize (IH Hnd). destruct e as [m [s a]].
    rewrite foldl_put_snoc, filter_app, fmap_app. unfold put at 1.
    rewrite filter_cons, filter_nil. simpl.
    destruct (decide (m = n)) as [->|Hne].
    + rewrite lookup_insert_eq. simpl. rewrite IH.
      apply dict_set_fresh. intros Hin.
      apply list_elem_of_fmap in Hin as ([s' a'] & Hs & Hin). simpl in Hs.
      apply list_elem_of_fmap in Hin as ([m' sa] & Heq & Hin). simpl in Heq.
      apply list_elem_of_filter in Hin as [Hm Hin]. simpl in Hm.
      apply (Hfresh (n, s)); [|left].
      apply list_elem_of_fmap. exists (m', sa). split; [|done].
      unfold entry_key. simpl. by subst.
    + rewrite lookup_insert_ne by done. simpl. by rewrite app_nil_r.
Qed.

Lemma decoded_Some f e :
  decoded from_wav f = Some e ↔
  clip_key f = Some (entry_key e) ∧ from_wav f = Some e.2.2.
Proof.
  unfold decoded, entry_key. destruct e as [n [s a]]. simpl.
  destruct (clip_key f) as [[n' s']|]; simpl; [|by split; [|intros [? _]]].
  destruct (from_wav f) as [a'|]; simpl; [|by split; [|intros [_ ?]]].
  split; [by intros [= -> -> ->]|by intros [[= -> ->] [= ->]]].
Qed.

Lemma line_number_of_key f n s : clip_key f = Some (n, s) → line_number_of f = n.
Proof. unfold line_number_of. by intros ->. Qed.

(** The audio of group [n], in terms of the files loaded. *)
Lemma group_audio_files fs n :
  Forall (λ f, is_Some (clip_key f)) fs →
  (snd <$> filter (λ e, e.1 = n) (omap (decoded from_wav) fs)).*2
  = omap from_wav (filter (λ f, line_number_of f = n) fs).
Proof.
  induction 1 as [|f fs [[m s] Hk] _ IH]; [done|].
  rewrite filter_cons. rewrite (line_number_of_key _ _ _ Hk).
  csimpl. unfold decoded at 1. rewrite Hk. csimpl.
  destruct (from_wav f) as [a|] eqn:Hw; csimpl.
  - rewrite filter_cons. simpl.
    destruct (decide (m = n)); csimpl; rewrite ?Hw; csimpl; by rewrite IH.
  - destruct (decide (m = n)); csimpl; rewrite ?Hw; csimpl; by rewrite IH.
Qed.

Lemma decoded_keys_NoDup fs :
  NoDup fs →
  (∀ f f', f ∈ fs → f' ∈ fs → is_Some (clip_key f) →
           clip_key f = clip_key f' → f = f') →
  NoDup (entry_key <$> omap (decoded from_wav) fs).
Proof.
  induction 1 as [|f fs Hf Hnd IH]; intros Hinj; [constructor|].
  assert (NoDup (entry_key <$> omap (decoded from_wav) fs)) as IH'.
  { apply IH. intros f1 f2 H1 H2. apply Hinj; by right. }
  csimpl. destruct (decoded from_wav f) as [e|] eqn:He; [|done].
  csimpl. constructor; [|done].
  intros Hin. apply list_elem_of_fmap in Hin as (e' & Heq & Hin).
  apply list_elem_of_omap in Hin as (f' & Hf' & He').
  apply decoded_Some in He as [Hk _]. apply decoded_Some in He' as [Hk' _].
  assert (f = f') as ->; [|done].
  apply Hinj; [left|by right|by rewrite Hk|by rewrite Hk, Hk', Heq].
Qed.

End AssemblerFacts.

(** ** What the assembler does with a directory *)

Section AssemblerClaims.

Context {AudioSegment : Type}.
Variable from_wav : string → option AudioSegment.
Variable empty : AudioSegment.
Variable add : AudioSegment → AudioSegment → result AudioSegment.
Variable export : AudioSegment → string → result unit.

Lemma clip_name_key f :
  is_clip_name f →
  ∃ n ls, clip_key f = Some (n, ls) ∧ f = str n +:+ "_" +:+ ls +:+ ".wav".
Proof.
  intros (n & s & Hne & Hs & ->).
  destruct (pattern_clip_filename n s Hne Hs) as [Heq Hp].
  exists n, (lower s). split; [|done].
  unfold clip_key. rewrite Hp. simpl. rewrite int_str. simpl.
  by rewrite lower_idemp.
Qed.

Lemma clip_key_inj f f' :
  is_clip_name f → is_clip_name f' → clip_key f = clip_key f' → f = f'.
Proof.
  intros (n & ls & Hk & ->)%clip_name_key (n' & ls' & Hk' & ->)%clip_name_key.
  rewrite Hk, Hk'. by intros [= -> ->].
Qed.

(** The track of [export_final_audio]: the clips of the loaded groups,
    in the order of [concatenate_audio], joined and exported. *)
Lemma export_final_audio_track listdir out :
  fst <$> export_final_audio from_wav empty add export listdir out
  = assemble empty add export (clips_in_order (loaded_groups from_wav listdir)) out.
Proof.
  unfold export_final_audio, load_audio_files, assemble.
  rewrite load_loop_spec, bind_Ok.
  set (st := {| audio_groups := _; printed := _ |}).
  change (clips_in_order (loaded_groups from_wav listdir))
    with (clips_in_order (audio_groups st)).
  rewrite <- (concatenate_audio_track empty add st).
  destruct (concatenate_audio empty add st) as [r|e]; [|done].
  rewrite fmap_Ok, !bind_Ok. by destruct (export r.1 out).
Qed.

(** A directory that holds clip files only. *)
Lemma assembly_of_clip_names (listdir : list string) (out : string) :
  NoDup listdir →
  (∀ f, f ∈ listdir → is_clip_name f) →
  ∃ l,
    l ≡ₚ listdir ∧
    Sorted (λ f f', line_number_of f ≤ line_number_of f')%N l ∧
    ∀ listdir', listdir' ≡ₚ listdir →
      fst <$> export_final_audio from_wav empty add export listdir' out
      = assemble empty add export (omap from_wav l) out.
Proof.
  intros Hnd Hnames.
  set (fs := merge_sort String.le listdir).
  assert (fs ≡ₚ listdir) as Hperm by apply merge_sort_Permutation.
  assert (∀ f, f ∈ fs → is_clip_name f) as Hfs.
  { intros f Hf. apply Hnames. by rewrite <- Hperm. }
  assert (Forall (λ f, is_Some (clip_key f)) fs) as Hkeys.
  { apply Forall_forall. intros f (n & ls & -> & _)%Hfs%clip_name_key. by eexists. }
  set (K := merge_sort N.le (elements (list_to_set (line_number_of <$> fs) : gset N))).
  set (F := λ n, filter (λ f, line_number_of f = n) fs).
  assert (NoDup K) as HK.
  { unfold K. rewrite merge_sort_Permutation. apply NoDup_elements. }
  assert (∀ n, n ∈ K ↔ ∃ f, f ∈ fs ∧ line_number_of f = n) as HKin.
  { intros n. unfold K.
    rewrite merge_sort_Permutation, elem_of_elements, elem_of_list_to_set.
    rewrite list_elem_of_fmap.
    split; [intros (f & -> & Hf)|intros (f & Hf & <-)]; by exists f. }
  exists (K ≫= F). split_and!.
  - rewrite <- Hperm. apply bind_filter_perm; [done|].
    intros f Hf. apply HKin. by exists f.
  - apply StronglySorted_Sorted, bind_filter_sorted.
    apply StronglySorted_merge_sort; apply _.
  - intros listdir' Hp. rewrite export_final_audio_track. f_equal.
    unfold loaded_groups. rewrite (merge_sort_perm _ _ Hp). fold fs.
    set (G := foldl put ∅ (omap (decoded from_wav) fs)).
    rewrite omap_bind_join. unfold clips_in_order.
    assert (∀ n, (default [] (G !! n)).*2 = omap from_wav (F n)) as Hgroup.
    { intros n. unfold G. rewrite foldl_put_group.
      - by rewrite group_audio_files.
      - apply decoded_keys_NoDup; [by rewrite Hperm|].
        intros f f' Hf Hf' _. apply clip_key_inj; by apply Hfs. }
    rewrite (list_fmap_ext _ (λ n, omap from_wav (F n))
               (merge_sort N.le (elements (dom G))))
      by (intros; apply Hgroup).
    assert (merge_sort N.le (elements (dom G)) = filter (λ n, n ∈ dom G) K) as ->.
    { apply (Sorted_unique N.le).
      - apply Sorted_merge_sort; apply _.
      - apply StronglySorted_Sorted, StronglySorted_filter.
        apply StronglySorted_merge_sort; apply _.
      - apply NoDup_Permutation.
        + rewrite merge_sort_Permutation. apply NoDup_elements.
        + by apply NoDup_filter.
        + intros n. rewrite merge_sort_Permutation, elem_of_elements.
          rewrite list_elem_of_filter. split; [|by intros [? _]].
          intros Hn. split; [done|].
          unfold G in Hn.
          rewrite foldl_put_dom, dom_empty_L, union_empty_l_L in Hn.
          apply elem_of_list_to_set, list_elem_of_fmap in Hn as (e & -> & He).
          apply list_elem_of_omap in He as (f & Hf & He).
          apply decoded_Some in He as [Hk _]. apply HKin. exists f.
          split; [done|]. by apply (line_number_of_key _ _ e.2.1). }
    apply mjoin_fmap_filter. intros n _ Hn.
    rewrite <- Hgroup. apply not_elem_of_dom in Hn. by rewrite Hn.
Qed.

(** The directory of the example of C2. *)
Lemma export_three_clips (listdir : list string) (out : string)
    (c1 c2 c3 : AudioSegment) :
  filter (λ f, is_Some (pattern f)) listdir ≡ₚ ["1_a.wav"; "2_b.wav"; "3_a.wav"] →
  from_wav "1_a.wav" = Some c1 → from_wav "2_b.wav" = Some c2 →
  from_wav "3_a.wav" = Some c3 →
  clips_in_order (loaded_groups from_wav (filter (λ f, is_Some (pattern f)) listdir))
  = [c1; c2; c3].
Proof.
  intros Hp H1 H2 H3. unfold loaded_groups.
  rewrite (merge_sort_perm _ _ Hp).
  assert (merge_sort String.le ["1_a.wav"; "2_b.wav"; "3_a.wav"]
          = ["1_a.wav"; "2_b.wav"; "3_a.wav"]) as -> by (vm_compute; reflexivity).
  assert (omap (decoded from_wav) ["1_a.wav"; "2_b.wav"; "3_a.wav"]
          = [(1%N, ("a", c1)); (2%N, ("b", c2)); (3%N, ("a", c3))]) as ->.
  { unfold decoded. csimpl. by rewrite H1, H2, H3. }
  unfold clips_in_order.
  assert (merge_sort N.le (elements (dom (foldl put ∅
            [(1%N, ("a", c1)); (2%N, ("b", c2)); (3%N, ("a", c3))])))
          = [1%N; 2%N; 3%N]) as ->.
  { rewrite foldl_put_dom. simpl. vm_compute. reflexivity. }
  simpl. unfold put. simpl. by simplify_map_eq.
Qed.

Lemma pattern_intro g1 g2 r :
  g1 ≠ EmptyString → PyStr.forallb isdigit g1 = true →
  g2 ≠ EmptyString → PyStr.forallb isletter g2 = true →
  pattern (g1 +:+ "_" +:+ g2 +:+ ".wav" +:+ r) = Some (g1, g2, r).
Proof.
  intros H1 Hd H2 Hl. unfold pattern.
  change ("_" +:+ ?x) with (String "_" x).
  rewrite span_stop by done. destruct g1 as [|c1 g1]; [done|].
  change (String "_" ?x) with ("_" +:+ x). rewrite strip_prefix_app. simpl.
  change (".wav" +:+ r) with (String "." ("wav" +:+ r)).
  rewrite span_stop by done. destruct g2 as [|c2 g2]; [done|].
  change (String "." ("wav" +:+ r)) with (".wav" +:+ r).
  by rewrite strip_prefix_app.
Qed.

Lemma omap_filter_None {A B} (w : A → option B) (P : A → Prop)
    `{∀ x, Decision (P x)} (l : list A) :
  (∀ x, ¬ P x → w x = None) → omap w (filter P l) = omap w l.
Proof.
  intros Hw. induction l as [|x l IH]; [done|].
  rewrite filter_cons. destruct (decide (P x)) as [Hx|Hx]; csimpl.
  - by rewrite IH.
  - by rewrite (Hw x Hx), IH.
Qed.

Lemma message_of_Some f m :
  message_of from_wav f = Some m ↔
  is_Some (pattern f) ∧
  m = match from_wav f with Some _ => InfoLoaded f | None => WarningCouldNotLoad f end.
Proof.
  unfold message_of. rewrite <- clip_key_is_Some.
  destruct (clip_key f) as [k|]; simpl.
  - split; [intros [= <-]; split; [by eexists|done]|by intros [_ ->]].
  - split; [done|]. by intros [[? ?] _].
Qed.

Lemma elem_of_load_messages listdir m :
  m ∈ omap (message_of from_wav) (merge_sort String.le listdir) ↔
  ∃ f, f ∈ listdir ∧ is_Some (pattern f) ∧
    m = match from_wav f with Some _ => InfoLoaded f | None => WarningCouldNotLoad f end.
Proof.
  rewrite list_elem_of_omap. setoid_rewrite message_of_Some.
  setoid_rewrite merge_sort_Permutation. naive_solver.
Qed.

Lemma load_audio_files_spec listdir :
  load_audio_files from_wav listdir =
  Ok {| audio_groups :=
          foldl put ∅ (omap (decoded from_wav) (merge_sort String.le listdir));
        printed :=
          InfoLoading :: omap (message_of from_wav) (merge_sort String.le listdir) |}.
Proof. unfold load_audio_files. by rewrite load_loop_spec. Qed.

(** Files that the pattern does not match leave no trace in the load. *)
Lemma load_ignores_unmatched (listdir : list string) :
  load_audio_files from_wav (filter (λ f, is_Some (pattern f)) listdir)
  = load_audio_files from_wav listdir.
Proof.
  rewrite !load_audio_files_spec, merge_sort_filter.
  rewrite !omap_filter_None; [done| |].
  - intros f Hf. unfold message_of.
    destruct (clip_key f) eqn:Hk; [|done].
    destruct Hf. apply clip_key_is_Some. by eexists.
  - intros f Hf. unfold decoded.
    destruct (clip_key f) eqn:Hk; [|done].
    destruct Hf. apply clip_key_is_Some. by eexists.
Qed.

Lemma export_ignores_unmatched (listdir : list string) (out : string) :
  export_final_audio from_wav empty add export
    (filter (λ f, is_Some (pattern f)) listdir) out
  = export_final_audio from_wav empty add export listdir out.
Proof. unfold export_final_audio. by rewrite load_ignores_unmatched. Qed.

Lemma is_clip_name_matched f : is_clip_name f → is_Some (pattern f).
Proof.
  intros (n & s & Hne & Hs & ->).
  destruct (pattern_clip_filename n s Hne Hs) as [_ ->]. by eexists.
Qed.

(** C2: in a directory whose clip files are named after a line number and
    a speaker, whatever other files it holds, every clip file is matched
    by the pattern and takes part in the track; the exported track is the
    contents of the clips that decode, taken in ascending order of their
    line numbers and joined with [+] from left to right, starting from the
    empty segment; and it is the same for every order in which the
    directory lists its files.  For the clips 1_a, 2_b and 3_a the track
    is the contents of 1_a, 2_b and 3_a joined in that order. *)
Theorem assembly_in_line_number_order :
  (∀ (listdir : list string) (out : string),
     NoDup listdir →
     (∀ f, f ∈ listdir → is_Some (pattern f) → is_clip_name f) →
     ∃ l,
       l ≡ₚ filter (λ f, is_Some (pattern f)) listdir ∧
       (∀ f, f ∈ listdir → is_clip_name f → f ∈ l) ∧
       Sorted (λ f f', line_number_of f ≤ line_number_of f')%N l ∧
       ∀ listdir', listdir' ≡ₚ listdir →
         fst <$> export_final_audio from_wav empty add export listdir' out
         = assemble empty add export (omap from_wav l) out) ∧
  (∀ (listdir : list string) (out : string) (c1 c2 c3 : AudioSegment),
     filter (λ f, is_Some (pattern f)) listdir
       ≡ₚ ["1_a.wav"; "2_b.wav"; "3_a.wav"] →
     from_wav "1_a.wav" = Some c1 → from_wav "2_b.wav" = Some c2 →
     from_wav "3_a.wav" = Some c3 →
     fst <$> export_final_audio from_wav empty add export listdir out
     = assemble empty add export [c1; c2; c3] out).
Proof.
  split.
  - intros listdir out Hnd Hnames.
    destruct (assembly_of_clip_names (filter (λ f, is_Some (pattern f)) listdir) out)
      as (l & Hperm & Hsorted & Hany).
    { by apply NoDup_filter. }
    { intros f [Hp Hf]%list_elem_of_filter. by apply Hnames. }
    exists l. split_and!; [done| |done|].
    + intros f Hf Hc. rewrite Hperm. apply list_elem_of_filter.
      split; [by apply is_clip_name_matched|done].
    + intros listdir' Hp. rewrite <- export_ignores_unmatched.
      apply Hany. by rewrite Hp.
  - intros listdir out c1 c2 c3 Hp H1 H2 H3.
    rewrite <- export_ignores_unmatched, export_final_audio_track.
    by rewrite (export_three_clips listdir out c1 c2 c3).
Qed.

Lemma filter_omap_decoded n s (fs : list string) :
  filter (λ e, entry_key e = (n, s)) (omap (decoded from_wav) fs)
  = omap (decoded from_wav)
         (filter (λ f, clip_key f = Some (n, s) ∧ is_Some (from_wav f)) fs).
Proof.
  induction fs as [|f fs IH]; [done|].
  rewrite (filter_cons (λ f, clip_key f = Some (n, s) ∧ is_Some (from_wav f))).
  csimpl. destruct (decoded from_wav f) as [e|] eqn:He.
  - pose proof He as [Hk Hw]%decoded_Some.
    rewrite filter_cons. destruct (decide (entry_key e = (n, s))) as [Hns|Hns].
    + rewrite decide_True by (rewrite Hk, Hw, Hns; eauto).
      csimpl. by rewrite He, IH.
    + rewrite decide_False; [done|]. rewrite Hk. intros [Heq _].
      apply Hns. congruence.
  - rewrite decide_False; [done|].
    intros [Hk [a Hw]]. unfold decoded in He. by rewrite Hk, Hw in He.
Qed.

(** The clip under a key after the load: the content of the last file,
    in the sorted order of the names, that has this key and decodes. *)
Lemma clip_at_loaded (listdir : list string) n s :
  dict_get s (default [] (loaded_groups from_wav listdir !! n)) =
  last (filter (λ f, clip_key f = Some (n, s) ∧ is_Some (from_wav f))
               (merge_sort String.le listdir)) ≫= from_wav.
Proof.
  unfold loaded_groups.
  rewrite foldl_put_clip, lookup_empty, filter_omap_decoded. simpl.
  set (l := filter _ (merge_sort String.le listdir)).
  assert (Forall (λ f, clip_key f = Some (n, s) ∧ is_Some (from_wav f)) l) as Hl.
  { apply Forall_forall. by intros f [? _]%list_elem_of_filter. }
  clearbody l. destruct l as [|f0 l0 _] using rev_ind; [done|].
  apply Forall_app in Hl as [_ [Hk [a Ha]]%Forall_singleton].
  rewrite omap_app, !last_app. csimpl.
  assert (decoded from_wav f0 = Some (n, (s, a))) as -> by by apply decoded_Some.
  simpl. by rewrite Ha.
Qed.

(** C8, as the code has it: the pattern is matched at the start of the
    file name and need not reach its end.  A file is loaded exactly when
    its name starts with digits, an underscore, ASCII letters and the
    extension, and its content decodes: these files get the loading
    message, the groups hold a clip under a key exactly when such a file
    has this key, and every clip of the groups is the content of such a
    file.  The other files of the directory change neither the groups
    nor the export, and the names final_output.wav and abc_alan.wav are
    among them. *)
Theorem files_matching_at_the_start_are_loaded (listdir : list string) (out : string) :
  ∃ st, load_audio_files from_wav listdir = Ok st ∧
    (∀ f, InfoLoaded f ∈ printed st ↔
          f ∈ listdir ∧ is_Some (pattern f) ∧ is_Some (from_wav f)) ∧
    (∀ n s, is_Some (clip_at st n s) ↔
          ∃ f, f ∈ listdir ∧ clip_key f = Some (n, s) ∧ is_Some (from_wav f)) ∧
    (∀ n s a, clip_at st n s = Some a →
          ∃ f, f ∈ listdir ∧ clip_key f = Some (n, s) ∧ from_wav f = Some a) ∧
    (∀ f, is_Some (clip_key f) ↔ is_Some (pattern f)) ∧
    (∀ f, is_Some (pattern f) ↔
          ∃ g1 g2 r, f = g1 +:+ "_" +:+ g2 +:+ ".wav" +:+ r ∧
            g1 ≠ EmptyString ∧ PyStr.forallb isdigit g1 = true ∧
            g2 ≠ EmptyString ∧ PyStr.forallb isletter g2 = true) ∧
    load_audio_files from_wav (filter (λ f, is_Some (pattern f)) listdir) = Ok st ∧
    export_final_audio from_wav empty add export
      (filter (λ f, is_Some (pattern f)) listdir) out
    = export_final_audio from_wav empty add export listdir out ∧
    pattern "final_output.wav" = None ∧ pattern "abc_alan.wav" = None.
Proof.
  pose proof (load_ignores_unmatched listdir) as Hload.
  assert (∀ n s a,
    dict_get s (default [] (loaded_groups from_wav listdir !! n)) = Some a →
    ∃ f, f ∈ listdir ∧ clip_key f = Some (n, s) ∧ from_wav f = Some a) as Hfrom.
  { intros n s a. rewrite clip_at_loaded.
    destruct (last _) as [f|] eqn:Hlast; [|done]. simpl. intros Ha.
    apply last_Some_elem_of, list_elem_of_filter in Hlast as [[Hk _] Hf].
    exists f. split_and!; [|done..]. by rewrite <- (merge_sort_Permutation String.le). }
  eexists. split; [apply load_audio_files_spec|]. split_and!.
  - intros f. simpl. rewrite elem_of_cons, elem_of_load_messages. split.
    + intros [?|(f' & Hf' & Hp & Hm)]; [done|].
      destruct (from_wav f') eqn:Hw; [|done]. injection Hm as ->.
      split_and!; [done..|]. by rewrite Hw.
    + intros (Hf & Hp & [a Ha]). right. exists f. by rewrite Ha.
  - intros n s. unfold clip_at. simpl. fold (loaded_groups from_wav listdir). split.
    + intros [a Ha]. destruct (Hfrom n s a Ha) as (f & Hf & Hk & Hw).
      exists f. split_and!; [done..|]. by rewrite Hw.
    + intros (f & Hf & Hk & Hw). rewrite clip_at_loaded.
      set (l := filter _ _).
      assert (f ∈ l) as Hin.
      { apply list_elem_of_filter. split; [done|].
        by rewrite (merge_sort_Permutation String.le). }
      destruct (last l) as [f'|] eqn:Hlast.
      * apply last_Some_elem_of, list_elem_of_filter in Hlast as [[_ Hw'] _].
        done.
      * destruct l as [|f0 l]; [by apply elem_of_nil in Hin|].
        assert (is_Some (last (f0 :: l))) as [f' Hf'] by by apply last_is_Some.
        congruence.
  - intros n s a. unfold clip_at. simpl. apply (Hfrom n s a).
  - apply clip_key_is_Some.
  - intros f. split.
    + intros [[[g1 g2] r] Hp]. exists g1, g2, r. by apply pattern_Some.
    + intros (g1 & g2 & r & -> & ? & ? & ? & ?). rewrite pattern_intro by done.
      by eexists.
  - by rewrite Hload, load_audio_files_spec.
  - unfold export_final_audio. by rewrite Hload.
  - reflexivity.
  - reflexivity.
Qed.

(** C9, as the code has it: a group holds at most one clip per speaker,
    the clip under a key is the content of the last file, in the sorted
    order of the names, that has this key and decodes, and an overwrite
    prints nothing: the only warnings are those of files that do not
    decode, and every matching file prints exactly one message. *)
Theorem last_file_wins_silently (listdir : list string) :
  ∃ st, load_audio_files from_wav listdir = Ok st ∧
    (∀ n group, audio_groups st !! n = Some group → NoDup group.*1) ∧
    (∀ n s, clip_at st n s =
            last (filter (λ f, clip_key f = Some (n, s) ∧ is_Some (from_wav f))
                         (merge_sort String.le listdir)) ≫= from_wav) ∧
    (∀ f, WarningCouldNotLoad f ∈ printed st ↔
          f ∈ listdir ∧ is_Some (pattern f) ∧ from_wav f = None) ∧
    length (printed st) = S (length (filter (λ f, is_Some (pattern f)) listdir)).
Proof.
  eexists. split; [apply load_audio_files_spec|]. split_and!.
  - simpl. apply foldl_put_NoDup. intros n d. by rewrite lookup_empty.
  - intros n s. unfold clip_at. simpl.
    rewrite foldl_put_clip, lookup_empty, filter_omap_decoded. simpl.
    set (l := filter _ (merge_sort String.le listdir)).
    assert (Forall (λ f, clip_key f = Some (n, s) ∧ is_Some (from_wav f)) l) as Hl.
    { apply Forall_forall. by intros f [? _]%list_elem_of_filter. }
    clearbody l. destruct l as [|f0 l0 _] using rev_ind; [done|].
    apply Forall_app in Hl as [_ [Hk [a Ha]]%Forall_singleton].
    rewrite omap_app, !last_app. csimpl.
    assert (decoded from_wav f0 = Some (n, (s, a))) as -> by by apply decoded_Some.
    simpl. by rewrite Ha.
  - intros f. simpl. rewrite elem_of_cons, elem_of_load_messages. split.
    + intros [?|(f' & Hf' & Hp & Hm)]; [done|].
      destruct (from_wav f') eqn:Hw; [done|]. by injection Hm as ->.
    + intros (Hf & Hp & Ha). right. exists f. by rewrite Ha.
  - simpl. f_equal.
    rewrite <- (merge_sort_Permutation String.le (filter _ listdir)).
    rewrite merge_sort_filter.
    induction (merge_sort String.le listdir) as [|f fs IH]; [done|].
    rewrite filter_cons. csimpl. unfold message_of at 1.
    destruct (decide (is_Some (pattern f))) as [Hp|Hp].
    + apply clip_key_is_Some in Hp as [k ->]. simpl. by rewrite IH.
    + destruct (clip_key f) eqn:Hk; [|done].
      destruct Hp. apply clip_key_is_Some. by eexists.
Qed.

End AssemblerClaims.

(** *** Instances on concrete directories *)

Lemma three_clip_names f :
  f ∈ ["3_a.wav"; "final_output.wav"; "1_a.wav"; "2_b.wav"] →
  is_Some (pattern f) → is_clip_name f.
Proof.
  intros Hf Hp. repeat (apply elem_of_cons in Hf as [->|Hf]).
  - by exists 3%N, "a".
  - by destruct Hp.
  - by exists 1%N, "a".
  - by exists 2%N, "b".
  - by apply elem_of_nil in Hf.
Qed.

Lemma assembly_in_line_number_order_witness :
  NoDup ["3_a.wav"; "final_output.wav"; "1_a.wav"; "2_b.wav"] ∧
  (∃ l,
     l ≡ₚ filter (λ f, is_Some (pattern f))
                 ["3_a.wav"; "final_output.wav"; "1_a.wav"; "2_b.wav"] ∧
     (∀ f, f ∈ ["3_a.wav"; "final_output.wav"; "1_a.wav"; "2_b.wav"] →
           is_clip_name f → f ∈ l) ∧
     Sorted (λ f f', line_number_of f ≤ line_number_of f')%N l ∧
     ∀ listdir',
       listdir' ≡ₚ ["3_a.wav"; "final_output.wav"; "1_a.wav"; "2_b.wav"] →
       fst <$> export_final_audio three_clips [] bytes_add export_ok
                 listdir' "final_output.wav"
       = assemble [] bytes_add export_ok (omap three_clips l) "final_output.wav") ∧
  filter (λ f, is_Some (pattern f))
         ["3_a.wav"; "final_output.wav"; "1_a.wav"; "2_b.wav"]
    ≡ₚ ["1_a.wav"; "2_b.wav"; "3_a.wav"] ∧
  fst <$> export_final_audio three_clips [] bytes_add export_ok
            ["3_a.wav"; "final_output.wav"; "1_a.wav"; "2_b.wav"] "final_output.wav"
  = assemble [] bytes_add export_ok
      [["001"%byte]; ["002"%byte]; ["003"%byte]] "final_output.wav" ∧
  assemble [] bytes_add export_ok
      [["001"%byte]; ["002"%byte]; ["003"%byte]] "final_output.wav"
  = Ok ["001"%byte; "002"%byte; "003"%byte].
Proof.
  assert (NoDup ["3_a.wav"; "final_output.wav"; "1_a.wav"; "2_b.wav"]) as Hnd.
  { apply (bool_decide_unpack
             (NoDup ["3_a.wav"; "final_output.wav"; "1_a.wav"; "2_b.wav"])).
    vm_compute. exact I. }
  assert (filter (λ f, is_Some (pattern f))
                 ["3_a.wav"; "final_output.wav"; "1_a.wav"; "2_b.wav"]
            ≡ₚ ["1_a.wav"; "2_b.wav"; "3_a.wav"]) as Hperm.
  { assert (filter (λ f, is_Some (pattern f))
                   ["3_a.wav"; "final_output.wav"; "1_a.wav"; "2_b.wav"]
            = ["3_a.wav"; "1_a.wav"; "2_b.wav"]) as -> by (vm_compute; reflexivity).
    etrans; [apply perm_swap|]. apply perm_skip, perm_swap. }
  split; [exact Hnd|]. split.
  { apply (proj1 (assembly_in_line_number_order three_clips [] bytes_add export_ok)
             ["3_a.wav"; "final_output.wav"; "1_a.wav"; "2_b.wav"] "final_output.wav"
             Hnd three_clip_names). }
  split; [exact Hperm|]. split; [|reflexivity].
  apply (proj2 (assembly_in_line_number_order three_clips [] bytes_add export_ok)
           ["3_a.wav"; "final_output.wav"; "1_a.wav"; "2_b.wav"] "final_output.wav"
           ["001"%byte] ["002"%byte] ["003"%byte] Hperm);
    reflexivity.
Defined.

(** The claim of C8 as stated fails: the name 1_a.wav.bak is not a full
    match of the pattern, and the file is loaded and exported. *)
Lemma prefix_match_is_loaded :
  fullmatch "1_a.wav.bak" = false ∧
  export_final_audio backup_only [] bytes_add export_ok
    ["1_a.wav.bak"] "final_output.wav" =
  Ok (["004"%byte],
      {| audio_groups := {[1%N := [("a", ["004"%byte])]]};
         printed := [InfoLoading; InfoLoaded "1_a.wav.bak"; InfoConcatenating;
                     DebugAdded 1 "a"; SuccessExported "final_output.wav"] |}).
Proof. split; vm_compute; reflexivity. Qed.

(** The claim of C9 as stated fails: two files have the key of line 1 of
    speaker a, the second overwrites the first, and the messages are the
    two loading messages, without a warning. *)
Lemma overwrite_prints_no_warning :
  clip_key "01_a.wav" = clip_key "1_a.wav" ∧
  load_audio_files two_takes ["1_a.wav"; "01_a.wav"] =
  Ok {| audio_groups := {[1%N := [("a", ["002"%byte])]]};
        printed := [InfoLoading; InfoLoaded "01_a.wav"; InfoLoaded "1_a.wav"] |}.
Proof. split; vm_compute; reflexivity. Qed.

(** ** The claims on parsing and on file names *)

Lemma tagged_lines_length lines :
  length (tagged_lines lines) = length (filter (λ line, tag_grammar line = true) lines).
Proof.
  induction lines as [|line lines IH]; [done|].
  rewrite tagged_lines_cons, filter_cons.
  destruct (name_pattern (strip line)) as [[name rest]|] eqn:E.
  - rewrite decide_True by (apply tag_grammar_name_pattern; by eexists).
    simpl. by rewrite IH.
  - rewrite decide_False; [done|].
    intros [? ?]%tag_grammar_name_pattern. congruence.
Qed.

Lemma texts_of_length s (tagged : list (string * string)) :
  length (texts_of s tagged) = length (filter (λ x, x = s) tagged.*1).
Proof.
  induction tagged as [|[name text] tagged IH]; [done|].
  rewrite texts_of_cons. csimpl. rewrite filter_cons.
  destruct (decide (name = s)); simpl; by rewrite IH.
Qed.

(** The invariant of C1 holds for every script that has a tagged line:
    [SpeakerOrder] has one entry per tagged line, and for each speaker the
    entries of [SpeakerOrder] and the list of [LinesPerSpeaker] are the
    names and the texts of the same tagged lines, in the same order. *)
Lemma speaker_order_invariant content vm p :
  init content vm = Ok p →
  tagged_lines (lines p) ≠ [] →
  length (speaker_orders p)
    = length (filter (λ line, tag_grammar line = true) (lines p)) ∧
  speaker_orders p = (tagged_lines (lines p)).*1 ∧
  ∀ s, s ∈ speaker_orders p →
    lines_per_speaker p !! s = Some (texts_of s (tagged_lines (lines p))) ∧
    length (filter (λ x, x = s) (speaker_orders p))
      = length (texts_of s (tagged_lines (lines p))).
Proof.
  intros Hinit Hne.
  destruct (init_spec content vm) as (p' & Hp' & _ & _ & Hnames & Horders & Hlps).
  rewrite Hinit in Hp'. injection Hp' as <-.
  assert (speaker_orders p = (tagged_lines (lines p)).*1) as Ho.
  { rewrite Horders, Hnames. apply speaker_order_tagged.
    by rewrite speaker_names_nil. }
  split_and!; [|done|].
  - by rewrite Ho, length_fmap, tagged_lines_length.
  - intros s Hs. rewrite Hlps, Ho, texts_of_length. split; [|done].
    rewrite decide_True; [done|]. rewrite Hnames. apply elem_of_speaker_names.
    by rewrite <- Ho.
Qed.

(** C1 fails on the script whose only line is an empty tag followed by
    text: no line of it is in the tag grammar, yet [SpeakerOrder] has one
    entry, the empty name, for which [LinesPerSpeaker] has no list. *)
Theorem empty_tag_breaks_speaker_order :
  ∃ p, init ("[]: hi" +:+ nl) None = Ok p ∧
    speaker_names p = [] ∧
    speaker_orders p = [EmptyString] ∧
    length (filter (λ line, tag_grammar line = true) (lines p)) = 0 ∧
    lines_per_speaker p !! EmptyString = None.
Proof. eexists. split; [vm_compute; reflexivity|]. by vm_compute. Qed.

(** The claim of C6 as stated fails: the sanitized name of line 1 of the
    speaker named Host 1 is not recognized by the assembler's pattern, and
    the letter e with acute accent, which is outside the set of the claim,
    is kept. *)
Lemma sanitized_name_not_recognized :
  clip_filename 1 "Host 1" = "1_host_1.wav" ∧
  pattern (clip_filename 1 "Host 1") = None ∧
  in_safe_set "233" = false ∧
  _sanitize_filename (String "233" EmptyString) = String "233" EmptyString.
Proof. split_and!; vm_compute; reflexivity. Qed.

(** C6, as the code has it: the sanitizer keeps every character of the set
    [A-Za-z0-9_.-], replaces every other ASCII character by an underscore
    (and keeps the letters and digits beyond ASCII, which its class of
    word characters contains); for a speaker name made of ASCII letters the
    clip name is the line number, an underscore, the lowercased name and
    the extension, and the assembler's pattern reads the line number and
    the lowercased name back from it. *)
Theorem sanitized_clip_name_is_recognized :
  (∀ c, in_safe_set c = true → keeps c = true) ∧
  (∀ c, (ord c < 128)%N → keeps c = in_safe_set c) ∧
  (∀ name, _sanitize_filename name
           = PyStr.map (λ c, if keeps c then c else "_"%char) name) ∧
  (∀ n speaker,
     speaker ≠ EmptyString → PyStr.forallb isletter speaker = true →
     clip_filename n speaker = str n +:+ "_" +:+ lower speaker +:+ ".wav" ∧
     pattern (clip_filename n speaker) = Some (str n, lower speaker, EmptyString) ∧
     clip_key (clip_filename n speaker) = Some (n, lower speaker)).
Proof.
  split_and!.
  - intros c. destruct c as [[] [] [] [] [] [] [] []]; vm_compute; done.
  - intros c Hc. rewrite keeps_ascii by done. unfold in_safe_set.
    by destruct (isletter c), (isdigit c), (Ascii.eqb c "_"), (Ascii.eqb c "."),
      (Ascii.eqb c "-").
  - done.
  - intros n speaker Hne Hs.
    destruct (pattern_clip_filename n speaker Hne Hs) as [Heq Hp].
    split_and!; [done..|]. unfold clip_key. rewrite Hp. simpl.
    rewrite int_str. simpl. by rewrite lower_idemp.
Qed.

Lemma sanitized_clip_name_is_recognized_witness :
  "Alan" ≠ EmptyString ∧ PyStr.forallb isletter "Alan" = true ∧
  clip_filename 12 "Alan" = str 12 +:+ "_" +:+ lower "Alan" +:+ ".wav" ∧
  pattern (clip_filename 12 "Alan") = Some (str 12, lower "Alan", EmptyString) ∧
  clip_key (clip_filename 12 "Alan") = Some (12%N, lower "Alan").
Proof.
  split; [discriminate|]. split; [reflexivity|].
  apply (proj2 (proj2 (proj2 sanitized_clip_name_is_recognized)) 12%N "Alan").
  - discriminate.
  - reflexivity.
Defined.

(** * Further properties of the two programs *)

(** ** Parsing *)

Lemma lstrip_first s c : first_char (lstrip s) = Some c → isspace c = false.
Proof.
  induction s as [|d s IH]; simpl; [done|].
  destruct (isspace d) eqn:Hd; [done|]. simpl. by intros [= <-].
Qed.

Lemma rstrip_first s c : first_char (rstrip s) = Some c → first_char s = Some c.
Proof.
  destruct s as [|d s]; simpl; [done|].
  destruct (rstrip s); [destruct (isspace d)|]; simpl; done.
Qed.

Lemma rstrip_last s c : last_char (rstrip s) = Some c → isspace c = false.
Proof.
  induction s as [|d s IH]; simpl; [done|].
  destruct (rstrip s) as [|e r] eqn:Hr.
  - destruct (isspace d) eqn:Hd; simpl; [done|]. by intros [= <-].
  - exact IH.
Qed.

Lemma lines_loop_filter (m : gmap string (list string)) (lines : list string) :
  lines_loop m (filter (λ line, tag_grammar line = true) lines) = lines_loop m lines.
Proof.
  revert m. induction lines as [|line lines IH]; intros m; [done|].
  rewrite filter_cons. simpl.
  destruct (decide (tag_grammar line = true)) as [Ht|Ht]; simpl.
  - destruct (line_pattern (strip line)) as [[name spoken]|]; [|done].
    by destruct (m !! name).
  - unfold line_pattern.
    destruct (name_pattern (strip line)) as [[name rest]|] eqn:E; [|done].
    destruct Ht. apply tag_grammar_name_pattern. by eexists.
Qed.

Lemma tag_of_untagged line : tag_grammar line ≠ true → tag_of line = None.
Proof.
  intros Ht. unfold tag_of.
  destruct (name_pattern (strip line)) as [[name rest]|] eqn:E; [|done].
  destruct Ht. apply tag_grammar_name_pattern. by eexists.
Qed.

Lemma tagged_lines_filter (lines : list string) :
  tagged_lines (filter (λ line, tag_grammar line = true) lines) = tagged_lines lines.
Proof.
  unfold tagged_lines. apply omap_filter_None. intros line Ht.
  unfold line_pattern.
  destruct (name_pattern (strip line)) as [[name rest]|] eqn:E; [|done].
  destruct Ht. apply tag_grammar_name_pattern. by eexists.
Qed.

Lemma speaker_names_filter (lines : list string) :
  _extract_speaker_names (filter (λ line, tag_grammar line = true) lines)
  = _extract_speaker_names lines.
Proof.
  unfold _extract_speaker_names. do 3 f_equal.
  apply (omap_filter_None tag_of). apply tag_of_untagged.
Qed.

(** X1: the speaker names are in ascending order without repetition, they
    are exactly the names captured on the lines of the script, and none is
    empty or holds a closing bracket. *)
Theorem speaker_names_sorted_distinct (lines : list string) :
  Sorted String.le (_extract_speaker_names lines) ∧
  NoDup (_extract_speaker_names lines) ∧
  (∀ name, name ∈ _extract_speaker_names lines ↔
           ∃ line, line ∈ lines ∧ tag_of line = Some name) ∧
  (∀ name, name ∈ _extract_speaker_names lines →
           name ≠ EmptyString ∧ PyStr.forallb not_rbracket name = true).
Proof.
  split_and!.
  - apply Sorted_merge_sort; apply _.
  - unfold _extract_speaker_names. rewrite merge_sort_Permutation.
    apply NoDup_elements.
  - intros name. by rewrite elem_of_speaker_names, tagged_lines_fst, list_elem_of_omap.
  - apply speaker_names_good.
Qed.

(** X2: lines outside the tag grammar (blank lines, stage directions) take
    no part in the parse: without them the speaker names and the lists of
    lines per speaker are the same, and so is the speaker order as soon as
    the script has one tagged line. *)
Theorem untagged_lines_are_ignored (lines : list string) :
  let tagged_only := filter (λ line, tag_grammar line = true) lines in
  _extract_speaker_names tagged_only = _extract_speaker_names lines ∧
  _extract_lines_per_speaker (_extract_speaker_names lines) tagged_only
  = _extract_lines_per_speaker (_extract_speaker_names lines) lines ∧
  (_extract_speaker_names lines ≠ [] →
   _extract_speaker_order (_extract_speaker_names lines) tagged_only
   = _extract_speaker_order (_extract_speaker_names lines) lines).
Proof.
  simpl. split_and!.
  - apply speaker_names_filter.
  - apply lines_loop_filter.
  - intros Hne. rewrite (speaker_order_tagged lines Hne).
    rewrite <- speaker_names_filter in *.
    by rewrite speaker_order_tagged, tagged_lines_filter.
Qed.

(** X3: after construction the speakers that have a list of lines are
    exactly the detected speakers, and each of these lists is non-empty
    and has one text per entry of the speaker in the tagged lines. *)
Theorem every_speaker_has_lines content vm :
  ∃ p, init content vm = Ok p ∧
    ∀ s, (s ∈ speaker_names p ↔ is_Some (lines_per_speaker p !! s)) ∧
         (∀ l, lines_per_speaker p !! s = Some l →
               l ≠ [] ∧
               length l = length (filter (λ x, x = s) (tagged_lines (lines p)).*1)).
Proof.
  destruct (init_spec content vm) as (p & Hinit & _ & _ & Hnames & _ & Hlps).
  exists p. split; [done|]. intros s. rewrite Hlps.
  destruct (decide (s ∈ speaker_names p)) as [Hs|Hs].
  - split; [by split; [eexists|]|]. intros l [= <-].
    rewrite texts_of_length. split; [|done].
    rewrite Hnames in Hs. apply elem_of_speaker_names in Hs.
    apply list_elem_of_fmap in Hs as ([s' t] & -> & Hin). simpl.
    intros Hnil. assert (t ∈ texts_of s' (tagged_lines (lines p))) as Ht.
    { unfold texts_of. apply list_elem_of_fmap. exists (s', t). split; [done|].
      by apply list_elem_of_filter. }
    rewrite Hnil in Ht. by apply elem_of_nil in Ht.
  - split; [|done]. split; [done|]. by intros [? ?].
Qed.

(** X4: every text kept for a speaker is trimmed: it neither starts nor
    ends with a white-space character. *)
Theorem spoken_texts_are_trimmed content vm :
  ∃ p, init content vm = Ok p ∧
    ∀ s l text, lines_per_speaker p !! s = Some l → text ∈ l →
      (∀ c, first_char text = Some c → isspace c = false) ∧
      (∀ c, last_char text = Some c → isspace c = false).
Proof.
  destruct (init_spec content vm) as (p & Hinit & _ & _ & _ & _ & Hlps).
  exists p. split; [done|]. intros s l text Hl Hin.
  rewrite Hlps in Hl. destruct (decide _); [|done]. injection Hl as <-.
  unfold texts_of in Hin. apply list_elem_of_fmap in Hin as ([s' t] & -> & Hin).
  apply list_elem_of_filter in Hin as [_ Hin]. unfold tagged_lines in Hin.
  apply list_elem_of_omap in Hin as (line & _ & Hline).
  destruct (line_pattern (strip line)) as [[name spoken]|]; [|done].
  injection Hline as _ <-. simpl. unfold strip. split.
  - intros c Hc. by apply rstrip_first, lstrip_first in Hc.
  - apply rstrip_last.
Qed.

(** ** The synthesis driver *)

Section DriverExtras.

Context {ST : Type} (speech_create : ST → string → string → ST * option (list byte)).

Implicit Types (p : PodcastScriptProcessor) (st : state ST).

Lemma requests_drive_tagged vm c k (tagged : list (string * string)) :
  requests (drive speech_create vm c k ((λ e, (e.1, Some e.2)) <$> tagged)).2
  = planned_requests vm tagged.
Proof.
  revert c k. induction tagged as [|[s t] tagged IH]; intros c k; [done|].
  csimpl. unfold _generate_single_audio.
  destruct (vm !! s) as [[|a v]|].
  - specialize (IH c (N.succ k)). by destruct (drive _ _ _ _ _).
  - destruct (speech_create c (String a v) t) as [c1 [audio|]];
      specialize (IH c1 (N.succ k)); destruct (drive _ _ _ _ _); simpl in *;
      by rewrite <- IH.
  - specialize (IH c (N.succ k)). by destruct (drive _ _ _ _ _).
Qed.

Lemma requests_drive_untagged vm c k (orders : list string) :
  requests (drive speech_create vm c k ((λ s, (s, None)) <$> orders)).2 = [].
Proof.
  revert k. induction orders as [|s orders IH]; intros k; [done|].
  csimpl. specialize (IH (N.succ k)).
  by destruct (vm !! s) as [[|a v]|]; destruct (drive _ _ _ _ _).
Qed.

Lemma run_of_script content vm c0 :
  ∃ p st, init content vm = Ok p ∧
    generate_audio speech_create p c0 = Ok st ∧
    trace st = LogStarting ::
      (drive speech_create (voice_map p) c0 1 (script_items (lines p))).2 ∧
    cursors_at p (tagged_lines (lines p)) st.
Proof.
  destruct (init_spec content vm) as (p & Hinit & _).
  destruct (generate_audio_drive speech_create _ _ c0 p Hinit) as (st & Hrun & Htr & Hc).
  exists p, st. split_and!; [done..| |done].
  destruct (drive _ _ _ _ _). by injection Htr.
Qed.

(** X5: the requests reach the provider in script order: their sequence
    is, for the tagged lines whose speaker has a voice, the voice of the
    speaker and the text of the line, whatever the provider answers. *)
Theorem requests_follow_the_script content vm c0 :
  ∃ p st, init content vm = Ok p ∧
    generate_audio speech_create p c0 = Ok st ∧
    requests (trace st) = planned_requests (voice_map p) (tagged_lines (lines p)).
Proof.
  destruct (run_of_script content vm c0) as (p & st & Hinit & Hrun & Htr & _).
  exists p, st. split_and!; [done..|]. rewrite Htr. unfold script_items.
  change (requests (LogStarting :: ?tr)) with (requests tr).
  destruct (_extract_speaker_names (lines p)) eqn:En.
  - apply speaker_names_nil in En. rewrite En. apply requests_drive_untagged.
  - apply requests_drive_tagged.
Qed.

Lemma written_names_origin vm c k items f :
  f ∈ written_names (drive speech_create vm c k items).2 →
  ∃ i s text, items !! i = Some (s, Some text) ∧ has_voice vm s = true ∧
    f = clip_filename (k + N.of_nat i) s.
Proof.
  intros (ev & Hev & Hf)%list_elem_of_omap.
  apply drive_event_origin in Hev as (i & s & text & Hi & Hev).
  exists i, s. unfold item_event in Hev. unfold has_voice.
  destruct (vm !! s) as [[|a v]|]; [|destruct text as [t|]|]; try by subst ev.
  exists t. destruct Hev as [-> | [-> | [[audio ->] | ->]]]; try done.
  by injection Hf as <-.
Qed.

Lemma written_names_drive_NoDup vm c k items :
  NoDup (written_names (drive speech_create vm c k items).2).
Proof.
  revert c k. induction items as [|[s text] items IH]; intros c k; [constructor|].
  simpl. unfold _generate_single_audio.
  destruct (vm !! s) as [[|a v]|]; [|destruct text as [t|]|].
  - specialize (IH c (N.succ k)). by destruct (drive _ _ _ _ _).
  - destruct (speech_create c (String a v) t) as [c1 [audio|]].
    + pose proof (IH c1 (N.succ k)) as Hnd.
      pose proof (written_names_origin vm c1 (N.succ k) items (clip_filename k s)) as Ho.
      destruct (drive _ _ _ _ _) as [c' tr]. simpl in *. constructor; [|done].
      intros (i & s' & t' & _ & _ & Heq)%Ho.
      apply clip_filename_inj_number in Heq. lia.
    + specialize (IH c1 (N.succ k)). by destruct (drive _ _ _ _ _).
  - specialize (IH c (N.succ k)). by destruct (drive _ _ _ _ _).
  - specialize (IH c (N.succ k)). by destruct (drive _ _ _ _ _).
Qed.

Lemma written_is_Some tr f : f ∈ written_names tr → is_Some (written tr !! f).
Proof.
  induction tr as [|ev tr IH] using rev_ind; [by intros ?%elem_of_nil|].
  unfold written_names. rewrite omap_app, elem_of_app, written_snoc.
  fold (written_names tr). intros [Hin|Hin].
  - destruct ev; try by apply IH.
    rewrite lookup_insert. destruct (decide _); [by eexists|by apply IH].
  - destruct ev; try by apply elem_of_nil in Hin.
    apply list_elem_of_singleton in Hin as ->. rewrite lookup_insert_eq. by eexists.
Qed.

(** X6: a run never writes a file twice: the names of its writes are
    pairwise different, so no clip of the run overwrites another clip of
    the run. *)
Theorem no_clip_is_written_twice content vm c0 :
  ∃ p st, init content vm = Ok p ∧
    generate_audio speech_create p c0 = Ok st ∧
    NoDup (written_names (trace st)).
Proof.
  destruct (run_of_script content vm c0) as (p & st & Hinit & Hrun & Htr & _).
  exists p, st. split_and!; [done..|].
  rewrite Htr. change (written_names (LogStarting :: ?tr)) with (written_names tr).
  apply written_names_drive_NoDup.
Qed.

(** X7: when the run ends, the cursor of every detected speaker with a
    voice is the length of its list of lines, so each of its lines was
    taken once; the cursor of a detected speaker without voice is 0, and
    no other speaker has a cursor. *)
Theorem cursors_after_the_run content vm c0 :
  ∃ p st, init content vm = Ok p ∧
    generate_audio speech_create p c0 = Ok st ∧
    ∀ s, index_tracker st !! s =
         if decide (s ∈ speaker_names p)
         then Some (if has_voice (voice_map p) s
                    then length (default [] (lines_per_speaker p !! s)) else 0)
         else None.
Proof.
  destruct (run_of_script content vm c0) as (p & st & Hinit & Hrun & _ & Hc).
  destruct (init_spec content vm) as (p' & Hp' & _ & _ & _ & _ & Hlps).
  rewrite Hinit in Hp'. injection Hp' as <-.
  exists p, st. split_and!; [done..|]. intros s. rewrite (Hc s), Hlps.
  by destruct (decide _).
Qed.

(** X8: on any processor and any state, the only exception of an
    iteration is the [KeyError] of a speaker that has a voice and a
    non-empty list of lines but no cursor; the bounds check keeps the
    index into the list of lines in range. *)
Theorem only_a_missing_cursor_raises p st n s e :
  loop_body speech_create p st n s = Raise e →
  e = KeyError ∧ index_tracker st !! s = None ∧
  has_voice (voice_map p) s = true ∧
  default [] (lines_per_speaker p !! s) ≠ [].
Proof.
  unfold loop_body, has_voice.
  destruct (voice_map p !! s) as [[|a v]|]; [done| |done].
  set (speaker_lines := default [] (lines_per_speaker p !! s)).
  destruct (index_tracker st !! s) as [i|] eqn:Hi; simpl.
  - destruct (decide _) as [|Hlt]; [done|].
    destruct (speaker_lines !! i) as [text|] eqn:Ht.
    + by destruct (_generate_single_audio _ _ _ _ _) as [[? ?] ?].
    + apply lookup_ge_None in Ht. lia.
  - destruct (decide _) as [|Hlt]; [done|].
    destruct (speaker_lines !! 0) as [text|] eqn:Ht.
    + intros [= <-]. split_and!; try done. intros Hnil. by rewrite Hnil in Ht.
    + apply lookup_ge_None in Ht. lia.
Qed.

Lemma order_without_names lines s :
  s ∈ _extract_speaker_order [] lines → s = EmptyString.
Proof.
  intros (line & _ & Hs)%list_elem_of_omap. unfold order_pattern in Hs.
  apply find_some in Hs as [Hin _]. simpl in Hin. by destruct Hin.
Qed.

(** X9: the warning of the bounds check is dead on a script that has a
    tagged line: it can only be given for the empty speaker name, on a
    script without any tagged line. *)
Theorem bounds_warning_needs_an_empty_tag content vm c0 :
  ∃ p st, init content vm = Ok p ∧
    generate_audio speech_create p c0 = Ok st ∧
    ∀ s n, LogOutOfBounds s n ∈ trace st →
      tagged_lines (lines p) = [] ∧ s = EmptyString.
Proof.
  destruct (run_of_script content vm c0) as (p & st & Hinit & Hrun & Htr & _).
  exists p, st. split_and!; [done..|]. intros s n. rewrite Htr.
  intros [?|Hin]%elem_of_cons; [done|].
  apply drive_event_origin in Hin as (i & s' & text & Hi & Hev).
  unfold item_event in Hev.
  assert (s' = s ∧ text = None) as [-> ->].
  { destruct (voice_map p !! s') as [[|a v]|]; [|destruct text|]; try done.
    - by destruct Hev as [?|[?|[[? ?]|?]]].
    - by injection Hev as ->. }
  unfold script_items in Hi.
  destruct (_extract_speaker_names (lines p)) eqn:En.
  - split; [by apply speaker_names_nil|].
    rewrite list_lookup_fmap in Hi.
    destruct (_extract_speaker_order [] (lines p) !! i) as [x|] eqn:Hx; [|done].
    injection Hi as ->. eapply order_without_names, list_elem_of_lookup_2, Hx.
  - rewrite list_lookup_fmap in Hi. by destruct (tagged_lines (lines p) !! i).
Qed.

End DriverExtras.

Lemma only_a_missing_cursor_raises_witness :
  loop_body always_answers one_line no_cursor 1 "A" = Raise KeyError ∧
  (KeyError = KeyError ∧ index_tracker no_cursor !! "A" = None ∧
   has_voice (voice_map one_line) "A" = true ∧
   default [] (lines_per_speaker one_line !! "A") ≠ []).
Proof.
  split; [vm_compute; reflexivity|].
  apply (only_a_missing_cursor_raises always_answers one_line no_cursor 1 "A" KeyError).
  vm_compute. reflexivity.
Defined.

(** ** File names *)

Lemma keeps_path_safe c : keeps c = true → path_safe c = true.
Proof. destruct c as [[] [] [] [] [] [] [] []]; vm_compute; done. Qed.

Lemma length_map f s : String.length (PyStr.map f s) = String.length s.
Proof. induction s as [|c s IH]; simpl; by rewrite ?IH. Qed.

Lemma sanitize_keeps name :
  PyStr.forallb keeps (_sanitize_filename name) = true.
Proof.
  unfold _sanitize_filename. rewrite forallb_map.
  induction name as [|c name IH]; [done|].
  change (PyStr.forallb ?q (String c name)) with (q c && PyStr.forallb q name).
  rewrite IH, andb_true_r. cbv beta.
  destruct (keeps c) eqn:Hc; [done|]. vm_compute. reflexivity.
Qed.

(** X10: the sanitizer keeps the length of a name, changes nothing in a
    name that it has sanitized, and its result holds only characters of
    its class: in particular no path separator and no white space, so a
    clip is written in the output directory itself. *)
Theorem sanitized_names_are_safe (name : string) :
  String.length (_sanitize_filename name) = String.length name ∧
  _sanitize_filename (_sanitize_filename name) = _sanitize_filename name ∧
  PyStr.forallb keeps (_sanitize_filename name) = true ∧
  PyStr.forallb path_safe (_sanitize_filename name) = true.
Proof.
  pose proof (sanitize_keeps name) as Hk.
  split_and!; [apply length_map| |done|].
  - by apply (map_id_on _ keeps); [intros c ->|].
  - eapply forallb_impl; [apply keeps_path_safe|done].
Qed.

(** X11: for every speaker name, also one that the sanitizer rewrites,
    the clip name is the line number in decimal, an underscore, the
    sanitized lowercased speaker name and the extension; the digits at its
    start are those of the line number and read back as the line number,
    so the clips of two different lines never share a name. *)
Theorem line_number_survives_sanitizing (n : N) (speaker : string) :
  clip_filename n speaker
  = str n +:+ "_" +:+ _sanitize_filename (lower speaker) +:+ ".wav" ∧
  (span isdigit (clip_filename n speaker)).1 = str n ∧
  int (span isdigit (clip_filename n speaker)).1 = Some n ∧
  ∀ n' speaker', clip_filename n speaker = clip_filename n' speaker' → n = n'.
Proof.
  split_and!.
  - apply clip_filename_eq.
  - by rewrite clip_filename_span.
  - rewrite clip_filename_span. apply int_str.
  - intros n' speaker'. apply clip_filename_inj_number.
Qed.

(** ** The constructor and the summary *)

Lemma bind_filter_perm_key {A K} `{EqDecision K} (key : A → K)
    (ks : list K) (xs : list A) :
  NoDup ks → (∀ x, x ∈ xs → key x ∈ ks) →
  ks ≫= (λ k, filter (λ x, key x = k) xs) ≡ₚ xs.
Proof.
  revert xs. induction ks as [|k ks IH]; intros xs Hnd Hin.
  - destruct xs as [|x xs]; [done|].
    by destruct (not_elem_of_nil (key x)); apply Hin; left.
  - apply NoDup_cons in Hnd as [Hk Hnd]. csimpl.
    etrans; [|apply (filter_app_complement (λ x, key x = k) xs)].
    apply Permutation_app; [done|].
    rewrite <- (IH (filter (λ x, key x ≠ k) xs) Hnd).
    + erewrite bind_ext_in; [done|]. intros k' Hk'. simpl.
      rewrite list_filter_filter. apply list_filter_iff.
      intros x. split; [|by intros [? ?]]. intros ->. split; [done|].
      by intros ->.
    + intros x [Hx Hxs]%list_elem_of_filter.
      by pose proof (Hin x Hxs) as [?|?]%elem_of_cons.
Qed.

Lemma length_bind_sum {A B} (f : A → list B) (l : list A) :
  length (l ≫= f) = sum_list ((λ x, length (f x)) <$> l).
Proof. induction l as [|x l IH]; csimpl; [done|]. by rewrite length_app, IH. Qed.

Lemma summary_counts_spec (p : PodcastScriptProcessor) :
  summary_counts (summary p)
  = (λ s, length (default [] (lines_per_speaker p !! s))) <$> speaker_names p.
Proof.
  unfold summary, summary_counts. csimpl.
  induction (speaker_names p) as [|s names IH]; csimpl; [done|]. by f_equal.
Qed.

(** X12: the summary has one message for the list of speakers and one per
    speaker; the number it reports for a speaker is the number of tagged
    lines of that speaker, it is never zero, and the numbers add up to the
    number of lines of the script that are in the tag grammar. *)
Theorem summary_counts_the_tagged_lines content vm :
  ∃ p, init content vm = Ok p ∧
    length (summary p) = S (length (speaker_names p)) ∧
    (∀ s k, InfoLineCount s k ∈ summary p ↔
       s ∈ speaker_names p ∧
       k = length (filter (λ e, e.1 = s) (tagged_lines (lines p)))) ∧
    (∀ s k, InfoLineCount s k ∈ summary p → 0 < k) ∧
    sum_list (summary_counts (summary p))
    = length (filter (λ line, tag_grammar line = true) (lines p)).
Proof.
  destruct (init_spec content vm) as (p & Hinit & _ & _ & Hnames & _ & Hlps).
  assert (∀ s, s ∈ speaker_names p →
    length (default [] (lines_per_speaker p !! s))
    = length (filter (λ e, e.1 = s) (tagged_lines (lines p)))) as Hcount.
  { intros s Hs. rewrite Hlps, decide_True by done. simpl.
    unfold texts_of. by rewrite length_fmap. }
  assert (∀ s k, InfoLineCount s k ∈ summary p ↔
       s ∈ speaker_names p ∧
       k = length (filter (λ e, e.1 = s) (tagged_lines (lines p)))) as Hmsg.
  { intros s k. unfold summary. rewrite elem_of_cons, list_elem_of_fmap. split.
    - intros [?|(s' & [= -> ->] & Hs')]; [done|]. split; [done|]. by apply Hcount.
    - intros [Hs ->]. right. exists s. split; [|done]. f_equal. by rewrite Hcount. }
  exists p. split_and!; [done| |done| |].
  - unfold summary. simpl. by rewrite length_fmap.
  - intros s k [Hs ->]%Hmsg. rewrite Hnames in Hs.
    apply elem_of_speaker_names, list_elem_of_fmap in Hs as ([s' t] & -> & Hin).
    assert ((s', t) ∈ filter (λ e, e.1 = s') (tagged_lines (lines p))) as Hf
      by by apply list_elem_of_filter.
    destruct (filter _ _); [by apply elem_of_nil in Hf|simpl; lia].
  - rewrite summary_counts_spec, <- tagged_lines_length.
    assert (speaker_names p ≫= (λ s, filter (λ e, e.1 = s) (tagged_lines (lines p)))
            ≡ₚ tagged_lines (lines p)) as Hperm.
    { apply (bind_filter_perm_key fst).
      - rewrite Hnames. unfold _extract_speaker_names.
        rewrite merge_sort_Permutation. apply NoDup_elements.
      - intros e He. rewrite Hnames. apply elem_of_speaker_names.
        apply list_elem_of_fmap. by exists e. }
    rewrite <- (Permutation_length Hperm), length_bind_sum. f_equal.
    apply list_fmap_ext. intros i s Hs. apply Hcount.
    by eapply list_elem_of_lookup_2.
Qed.

Lemma resolve_api_key_None api_key getenv :
  resolve_api_key api_key getenv = None ↔
  api_key = Some EmptyString ∨
  (api_key = None ∧ (getenv = None ∨ getenv = Some EmptyString)).
Proof.
  unfold resolve_api_key.
  destruct api_key as [[|a k]|]; [intuition congruence..|].
  destruct getenv as [[|a k]|]; intuition congruence.
Qed.

(** X13: the constructor fails in the order of its statements.  An
    exception of [mkdir] comes first, whatever the key and the script.
    Then the error of the missing key is raised exactly when the argument
    is the empty string, or is absent while the environment variable is
    unset or empty: this depends neither on the client nor on the script,
    and a key given as argument is never replaced by the one of the
    environment.  With a key, an exception of the constructor of the
    client comes next; the missing script is reported exactly when all of
    these pass and there is no file, and once the file is read the
    parsing passes raise nothing. *)
Theorem constructor_tests_the_key_first mkdir Groq script_file vm api_key getenv :
  (∀ e, mkdir = Some e →
     __init__ mkdir Groq script_file vm api_key getenv = inl (OutputDirError e)) ∧
  (__init__ mkdir Groq script_file vm api_key getenv = inl NoApiKey ↔
     mkdir = None ∧
     (api_key = Some EmptyString ∨
      (api_key = None ∧ (getenv = None ∨ getenv = Some EmptyString)))) ∧
  (∀ k getenv', api_key = Some k →
     __init__ mkdir Groq script_file vm api_key getenv
     = __init__ mkdir Groq script_file vm api_key getenv') ∧
  (∀ e, __init__ mkdir Groq script_file vm api_key getenv = inl (ClientError e) ↔
     mkdir = None ∧
     ∃ key, resolve_api_key api_key getenv = Some key ∧ Groq key = Some e) ∧
  (__init__ mkdir Groq script_file vm api_key getenv = inl ScriptNotFound ↔
     mkdir = None ∧ script_file = None ∧
     ∃ key, resolve_api_key api_key getenv = Some key ∧ Groq key = None) ∧
  (∀ e, __init__ mkdir Groq script_file vm api_key getenv ≠ inl (Uncaught e)).
Proof.
  pose proof (resolve_api_key_None api_key getenv) as Hkey.
  assert (∀ content, ∃ p, init content vm = Ok p) as Hinit.
  { intros content. destruct (init_spec content vm) as (p & Hp & _). by exists p. }
  split_and!.
  - by intros e ->.
  - rewrite <- Hkey. unfold __init__.
    destruct mkdir as [e|]; [split; [done|by intros [? _]]|].
    destruct (resolve_api_key api_key getenv) as [key|]; [|done].
    split; [|by intros [_ ?]].
    destruct (Groq key); [done|]. destruct script_file as [content|]; [|done].
    by destruct (Hinit content) as [p ->].
  - intros k getenv' ->. unfold __init__, resolve_api_key. by destruct mkdir, k.
  - intros e. unfold __init__.
    destruct mkdir as [e0|]; [split; [done|by intros [? _]]|].
    destruct (resolve_api_key api_key getenv) as [key|];
      [|split; [done|by intros (_ & key & ? & _)]].
    destruct (Groq key) as [e1|] eqn:HG.
    + split; [intros [= ->]; eauto|].
      intros (_ & key' & [= <-] & HG'). congruence.
    + split; [|intros (_ & key' & [= <-] & HG'); congruence].
      destruct script_file as [content|]; [|done].
      by destruct (Hinit content) as [p ->].
  - unfold __init__.
    destruct mkdir as [e0|]; [split; [done|by intros [? _]]|].
    destruct (resolve_api_key api_key getenv) as [key|];
      [|split; [done|by intros (_ & _ & key & ? & _)]].
    destruct (Groq key) as [e1|] eqn:HG.
    + split; [done|]. intros (_ & _ & key' & [= <-] & HG'). congruence.
    + destruct script_file as [content|].
      * destruct (Hinit content) as [p ->]. split; [done|]. by intros (_ & ? & _).
      * split; [|done]. intros _. split_and!; [done..|]. by exists key.
  - intros e. unfold __init__. destruct mkdir; [done|].
    destruct (resolve_api_key api_key getenv) as [key|]; [|done].
    destruct (Groq key); [done|]. destruct script_file as [content|]; [|done].
    by destruct (Hinit content) as [p ->].
Qed.

(** ** The two programs in sequence *)

Lemma clip_key_clip_filename n s :
  s ≠ EmptyString → PyStr.forallb isletter s = true →
  clip_key (clip_filename n s) = Some (n, lower s) ∧
  fullmatch (clip_filename n s) = true.
Proof.
  intros Hne Hs. destruct (pattern_clip_filename n s Hne Hs) as [_ Hp].
  unfold clip_key, fullmatch. rewrite Hp. simpl. rewrite int_str. simpl.
  by rewrite lower_idemp.
Qed.

Lemma voice_mapping_lookup s v :
  voice_mapping !! s = Some v →
  (s = "Alan" ∧ v = "Atlas-PlayAI") ∨ (s = "Arabella" ∧ v = "Deedee-PlayAI").
Proof.
  unfold voice_mapping.
  rewrite lookup_insert_Some, lookup_insert_Some, lookup_empty.
  intros [[<- <-]|[_ [[<- <-]|[_ ?]]]]; [by left|by right|done].
Qed.

Lemma voices_A_B_letters : voiced_names_are_letters (default ∅ (Some voices_A_B)).
Proof.
  intros s. simpl. unfold has_voice, voices_A_B.
  destruct (decide (s = "A")) as [->|]; [done|].
  rewrite lookup_insert_ne by done.
  destruct (decide (s = "B")) as [->|]; [done|].
  by rewrite lookup_insert_ne, lookup_empty by done.
Qed.

Lemma sorted_by_number_unique (l w : list string) :
  l ≡ₚ w →
  Sorted (λ f f', (line_number_of f ≤ line_number_of f')%N) l →
  StronglySorted (λ f f', (line_number_of f < line_number_of f')%N) w →
  l = w.
Proof.
  intros Hp Hl Hw.
  apply Sorted_StronglySorted in Hl; [|intros x y z ? ?; lia].
  revert l Hp Hl. induction Hw as [|x w Hw IH Hx]; intros l Hp Hl.
  - by apply Permutation_nil_r in Hp.
  - destruct l as [|y l]; [by apply Permutation_nil_cons in Hp|].
    inversion_clear Hl as [|? ? Hl' Hy].
    assert (y = x) as ->.
    { destruct (decide (y = x)) as [|Hne]; [done|]. exfalso.
      assert (y ∈ x :: w) as Hy1 by (rewrite <- Hp; left).
      assert (x ∈ y :: l) as Hx1 by (rewrite Hp; left).
      apply elem_of_cons in Hy1 as [?|Hyw]; [done|].
      apply elem_of_cons in Hx1 as [?|Hxl]; [done|].
      rewrite Forall_forall in Hx, Hy.
      specialize (Hx y Hyw). specialize (Hy x Hxl). lia. }
    f_equal. apply IH; [by apply Permutation_cons_inv in Hp|done].
Qed.

Lemma filter_none {A} (P : A → Prop) `{∀ x, Decision (P x)} (l : list A) :
  (∀ x, x ∈ l → ¬ P x) → filter P l = [].
Proof.
  induction l as [|x l IH]; intros Hl; [done|].
  rewrite filter_cons, decide_False by (apply Hl; left).
  apply IH. intros y Hy. apply Hl. by right.
Qed.

Lemma filter_all {A} (P : A → Prop) `{∀ x, Decision (P x)} (l : list A) :
  (∀ x, x ∈ l → P x) → filter P l = l.
Proof.
  induction l as [|x l IH]; intros Hl; [done|].
  rewrite filter_cons, decide_True by (apply Hl; left).
  f_equal. apply IH. intros y Hy. apply Hl. by right.
Qed.

Section Pipeline.

Context {ST : Type} (speech_create : ST → string → string → ST * option (list byte)).

Context {AudioSegment : Type}.
Variable from_wav : string → option AudioSegment.
Variable empty : AudioSegment.
Variable add : AudioSegment → AudioSegment → result AudioSegment.
Variable export : AudioSegment → string → result unit.

Lemma written_names_clip vm c k items f :
  voiced_names_are_letters vm →
  f ∈ written_names (drive speech_create vm c k items).2 →
  is_clip_name f ∧ (k ≤ line_number_of f)%N.
Proof.
  intros Hvm (i & s & text & _ & Hv & ->)%written_names_origin.
  destruct (Hvm s Hv) as [Hne Hs]. split; [by exists (k + N.of_nat i)%N, s|].
  destruct (clip_key_clip_filename (k + N.of_nat i) s Hne Hs) as [Hk _].
  rewrite (line_number_of_key _ _ _ Hk). lia.
Qed.

Lemma written_names_ascending vm c k items :
  voiced_names_are_letters vm →
  StronglySorted (λ f f', (line_number_of f < line_number_of f')%N)
    (written_names (drive speech_create vm c k items).2).
Proof.
  intros Hvm. revert c k.
  induction items as [|[s text] items IH]; intros c k; [constructor|].
  simpl. unfold _generate_single_audio.
  destruct (vm !! s) as [[|a v]|] eqn:Hs; [|destruct text as [t|]|].
  - specialize (IH c (N.succ k)). by destruct (drive _ _ _ _ _).
  - destruct (speech_create c (String a v) t) as [c1 [audio|]].
    + pose proof (IH c1 (N.succ k)) as Hsorted.
      pose proof (written_names_clip vm c1 (N.succ k) items) as Ho.
      destruct (drive _ _ _ _ _) as [c' tr]. simpl in *. constructor; [done|].
      apply Forall_forall. intros f' Hf'. destruct (Ho f' Hvm Hf') as [_ Hle].
      assert (has_voice vm s = true) as Hv by (unfold has_voice; by rewrite Hs).
      destruct (Hvm s Hv) as [Hne Hl].
      destruct (clip_key_clip_filename k s Hne Hl) as [Hk _].
      rewrite (line_number_of_key _ _ _ Hk). lia.
    + specialize (IH c1 (N.succ k)). by destruct (drive _ _ _ _ _).
  - specialize (IH c (N.succ k)). by destruct (drive _ _ _ _ _).
  - specialize (IH c (N.succ k)). by destruct (drive _ _ _ _ _).
Qed.

(** X14: [main] gives a voice to the speakers named Alan and Arabella,
    spelled exactly so, and to nobody else: every request carries one of
    the two voices of its map, every file it writes is named after a
    line number and one of the two names in lower case, a name that the
    assembler's pattern matches to its end and reads the line number
    from, and every tagged line of a speaker with another name, also one
    that differs by case only, is skipped with the warning. *)
Theorem main_voices_alan_and_arabella mkdir Groq content api_key getenv c0 msgs st :
  main speech_create mkdir Groq (Some content) api_key getenv c0 = inr (msgs, st) →
  (∀ voice text, (voice, text) ∈ requests (trace st) →
     voice = "Atlas-PlayAI" ∨ voice = "Deedee-PlayAI") ∧
  (∀ f, f ∈ written_names (trace st) →
     ∃ n, (f = str n +:+ "_alan.wav" ∨ f = str n +:+ "_arabella.wav") ∧
          fullmatch f = true ∧ line_number_of f = n) ∧
  (∀ i s text, tagged_lines (readlines content) !! i = Some (s, text) →
     s ≠ "Alan" → s ≠ "Arabella" →
     LogSkipNoVoice (1 + N.of_nat i) s ∈ trace st).
Proof.
  unfold main, __init__. destruct mkdir; [done|].
  destruct (resolve_api_key _ _) as [key|]; [|done]. destruct (Groq key); [done|].
  destruct (run_of_script speech_create content (Some voice_mapping) c0)
    as (p & st' & Hinit & Hrun & Htr & _).
  destruct (init_spec content (Some voice_mapping))
    as (p' & Hinit' & Hvmp & Hlines & _).
  rewrite Hinit in Hinit'. injection Hinit' as <-. simpl in Hvmp.
  rewrite Hinit. cbv beta iota zeta. rewrite Hrun. intros [= <- <-].
  rewrite Htr, Hvmp. split_and!.
  - intros voice text (ev & Hev & Hreq)%list_elem_of_omap.
    apply elem_of_cons in Hev as [->|Hev]; [done|].
    apply drive_event_origin in Hev as (i & s & t & _ & Hev).
    unfold item_event in Hev.
    destruct (voice_mapping !! s) as [[|a v]|] eqn:Hs; [|destruct t|];
      try by subst ev.
    destruct Hev as [-> | [-> | [[audio ->] | ->]]]; try done.
    injection Hreq as <- <-.
    by apply voice_mapping_lookup in Hs as [[_ ->]|[_ ->]]; [left|right].
  - intros f Hf.
    change (written_names (LogStarting :: ?tr)) with (written_names tr) in Hf.
    apply written_names_origin in Hf as (i & s & t & _ & Hv & ->).
    exists (1 + N.of_nat i)%N. unfold has_voice in Hv.
    destruct (voice_mapping !! s) as [[|a v]|] eqn:Hs; try done.
    apply voice_mapping_lookup in Hs as [[-> _]|[-> _]].
    + destruct (pattern_clip_filename (1 + N.of_nat i) "Alan") as [Heq _]; [done..|].
      destruct (clip_key_clip_filename (1 + N.of_nat i) "Alan") as [Hk Hm]; [done..|].
      split_and!; [by left|done|by apply (line_number_of_key _ _ _ Hk)].
    + destruct (pattern_clip_filename (1 + N.of_nat i) "Arabella") as [Heq _]; [done..|].
      destruct (clip_key_clip_filename (1 + N.of_nat i) "Arabella") as [Hk Hm]; [done..|].
      split_and!; [by right|done|by apply (line_number_of_key _ _ _ Hk)].
  - intros i s text Hi%script_items_tagged Ha Hb. rewrite <- Hlines in Hi. right.
    pose proof (drive_item_events speech_create voice_mapping c0 1 _ i s _ Hi) as Hev.
    assert (voice_mapping !! s = None) as Hs.
    { unfold voice_mapping. by rewrite !lookup_insert_ne, lookup_empty by done. }
    simpl in Hev. by rewrite Hs in Hev.
Qed.

(** X15: the two programs fit together.  When the speakers that have a
    voice have names of ASCII letters, every file written by the synthesis
    is matched to its end by the pattern of the assembler, and the
    assembler run on a directory that holds these files, and besides them
    only files that its pattern does not match, exports the decoded
    contents of these files joined in the order in which the synthesis
    wrote them, which is the order of the lines of the script. *)
Theorem assembled_track_follows_the_script content vm c0 p st
    (listdir others : list string) (out : string) :
  voiced_names_are_letters (default ∅ vm) →
  init content vm = Ok p →
  generate_audio speech_create p c0 = Ok st →
  listdir ≡ₚ written_names (trace st) ++ others →
  (∀ f, f ∈ others → pattern f = None) →
  (∀ f, f ∈ written_names (trace st) → fullmatch f = true) ∧
  fst <$> export_final_audio from_wav empty add export listdir out
  = assemble empty add export (omap from_wav (written_names (trace st))) out.
Proof.
  intros Hvm Hinit Hrun Hperm Hothers.
  destruct (run_of_script speech_create content vm c0)
    as (p' & st' & Hinit' & Hrun' & Htr & _).
  rewrite Hinit in Hinit'. injection Hinit' as <-.
  rewrite Hrun in Hrun'. injection Hrun' as <-.
  destruct (init_spec content vm) as (p' & Hinit' & Hvmp & _).
  rewrite Hinit in Hinit'. injection Hinit' as <-. rewrite <- Hvmp in Hvm.
  rewrite Htr in Hperm |- *.
  change (written_names (LogStarting :: ?tr)) with (written_names tr) in *.
  set (W := written_names _) in *.
  assert (∀ f, f ∈ W → is_clip_name f) as Hclip.
  { intros f Hf. by apply written_names_clip in Hf as [? _]. }
  split.
  { intros f (n & s & Hne & Hs & ->)%Hclip.
    by destruct (clip_key_clip_filename n s Hne Hs). }
  assert (filter (λ f, is_Some (pattern f)) listdir ≡ₚ W) as Hmatched.
  { rewrite Hperm, filter_app.
    rewrite (filter_none _ others), app_nil_r.
    - rewrite (filter_all _ W); [done|].
      intros f Hf. by apply is_clip_name_matched, Hclip.
    - intros f Hf. rewrite (Hothers f Hf). by intros [? ?]. }
  rewrite <- export_ignores_unmatched.
  destruct (assembly_of_clip_names from_wav empty add export
              (filter (λ f, is_Some (pattern f)) listdir) out)
    as (l & Hl & Hsorted & Hany).
  { rewrite Hmatched. apply written_names_drive_NoDup. }
  { intros f Hf. rewrite Hmatched in Hf. by apply Hclip. }
  rewrite (Hany _ (reflexivity _)).
  rewrite (sorted_by_number_unique l W (transitivity Hl Hmatched) Hsorted); [done|].
  by apply written_names_ascending.
Qed.

End Pipeline.

Lemma main_voices_alan_and_arabella_witness :
  ∃ msgs st,
    main always_answers None (λ _, None) (Some script_alan) (Some "key") None ()
    = inr (msgs, st) ∧
    written_names (trace st) = ["1_alan.wav"; "3_arabella.wav"] ∧
    ((∀ voice text, (voice, text) ∈ requests (trace st) →
        voice = "Atlas-PlayAI" ∨ voice = "Deedee-PlayAI") ∧
     (∀ f, f ∈ written_names (trace st) →
        ∃ n, (f = str n +:+ "_alan.wav" ∨ f = str n +:+ "_arabella.wav") ∧
             fullmatch f = true ∧ line_number_of f = n) ∧
     (∀ i s text, tagged_lines (readlines script_alan) !! i = Some (s, text) →
        s ≠ "Alan" → s ≠ "Arabella" →
        LogSkipNoVoice (1 + N.of_nat i) s ∈ trace st)).
Proof.
  eexists _, _. split; [vm_compute; reflexivity|]. split; [vm_compute; reflexivity|].
  eapply (main_voices_alan_and_arabella always_answers None (λ _, None)
            script_alan (Some "key") None ()).
  vm_compute. reflexivity.
Defined.

Lemma assembled_track_follows_the_script_witness :
  ∃ p st,
    voiced_names_are_letters (default ∅ (Some voices_A_B)) ∧
    init script_hi_yo_bye (Some voices_A_B) = Ok p ∧
    generate_audio numbers_calls p 0 = Ok st ∧
    written_names (trace st) = ["1_a.wav"; "2_b.wav"; "3_a.wav"] ∧
    ["3_a.wav"; "final_output.wav"; "1_a.wav"; "script.txt"; "2_b.wav"]
      ≡ₚ written_names (trace st) ++ ["final_output.wav"; "script.txt"] ∧
    (∀ f, f ∈ ["final_output.wav"; "script.txt"] → pattern f = None) ∧
    (∀ f, f ∈ written_names (trace st) → fullmatch f = true) ∧
    fst <$> export_final_audio three_clips [] bytes_add export_ok
              ["3_a.wav"; "final_output.wav"; "1_a.wav"; "script.txt"; "2_b.wav"]
              "final_output.wav"
    = assemble [] bytes_add export_ok (omap three_clips (written_names (trace st)))
               "final_output.wav" ∧
    assemble [] bytes_add export_ok (omap three_clips (written_names (trace st)))
             "final_output.wav"
    = Ok ["001"%byte; "002"%byte; "003"%byte].
Proof.
  eexists _, _. split; [exact voices_A_B_letters|].
  split; [vm_compute; reflexivity|]. split; [vm_compute; reflexivity|].
  split; [vm_compute; reflexivity|].
  assert (∀ f, f ∈ ["final_output.wav"; "script.txt"] → pattern f = None) as Hothers.
  { intros f Hf. repeat (apply elem_of_cons in Hf as [->|Hf]); [done..|].
    by apply elem_of_nil in Hf. }
  match goal with
  | |- ?l ≡ₚ ?w ++ ?o ∧ _ =>
      assert (l ≡ₚ w ++ o) as Hperm
        by (apply (bool_decide_unpack (l ≡ₚ w ++ o)); vm_compute; exact I)
  end.
  split; [exact Hperm|]. split; [exact Hothers|].
  match goal with
  | |- ?A ∧ ?B ∧ ?C =>
      cut (A ∧ B);
      [intros [HA HB]; split; [exact HA|]; split; [exact HB|];
       vm_compute; reflexivity|]
  end.
  eapply (assembled_track_follows_the_script numbers_calls three_clips []
            bytes_add export_ok script_hi_yo_bye (Some voices_A_B) 0);
    [exact voices_A_B_letters|vm_compute; reflexivity|vm_compute; reflexivity
    |exact Hperm|exact Hothers].
Defined.

(** ** The assembler *)


Lemma int_leading_zero s : int (String "0" s) = int s.
Proof. unfold int. simpl. by destruct (NilEmpty.uint_of_string s). Qed.

Section AssemblerExtras.

Context {AudioSegment : Type}.
Variable from_wav : string → option AudioSegment.
Variable empty : AudioSegment.
Variable add : AudioSegment → AudioSegment → result AudioSegment.
Variable export : AudioSegment → string → result unit.


(** X17: a clip file that fails to decode leaves no gap and no mark in
    the result: the groups after the load, the track, and the exception
    if there is one, are those of the same directory without the files
    that do not decode. *)
Theorem undecodable_files_leave_no_gap (listdir : list string) (out : string) :
  (∃ st st',
     load_audio_files from_wav listdir = Ok st ∧
     load_audio_files from_wav (filter (λ f, is_Some (from_wav f)) listdir) = Ok st' ∧
     audio_groups st' = audio_groups st) ∧
  fst <$> export_final_audio from_wav empty add export
            (filter (λ f, is_Some (from_wav f)) listdir) out
  = fst <$> export_final_audio from_wav empty add export listdir out ∧
  (∀ combined st,
     export_final_audio from_wav empty add export listdir out = Ok (combined, st) →
     ∃ st', export_final_audio from_wav empty add export
              (filter (λ f, is_Some (from_wav f)) listdir) out = Ok (combined, st') ∧
            audio_groups st' = audio_groups st).
Proof.
  assert (loaded_groups from_wav (filter (λ f, is_Some (from_wav f)) listdir)
          = loaded_groups from_wav listdir) as Heq.
  { unfold loaded_groups. rewrite merge_sort_filter. f_equal.
    apply omap_filter_None. intros f Hf. unfold decoded.
    destruct (clip_key f) as [[n s]|]; [|done]. simpl.
    destruct (from_wav f); [|done]. destruct Hf. by eexists. }
  assert (fst <$> export_final_audio from_wav empty add export
            (filter (λ f, is_Some (from_wav f)) listdir) out
          = fst <$> export_final_audio from_wav empty add export listdir out) as Htrack.
  { by rewrite !export_final_audio_track, Heq. }
  split_and!; [|done|].
  - eexists _, _. split; [apply load_audio_files_spec|].
    split; [apply load_audio_files_spec|]. exact Heq.
  - intros combined st Hexp. rewrite Hexp in Htrack.
    unfold export_final_audio in Hexp |- *.
    rewrite load_audio_files_spec, bind_Ok in Hexp |- *.
    set (st0 := {| audio_groups := _; printed := _ |}) in Hexp.
    set (st0' := {| audio_groups := _; printed := _ |}).
    pose proof (concatenate_audio_track empty add st0) as Ht.
    pose proof (concatenate_audio_track empty add st0') as Ht'.
    assert (audio_groups st0' = audio_groups st0) as Hg by exact Heq.
    rewrite Hg, <- Ht in Ht'.
    pose proof (concatenate_audio_groups empty add st0) as Hg0.
    pose proof (concatenate_audio_groups empty add st0') as Hg0'.
    destruct (concatenate_audio empty add st0) as [r|e]; [|done].
    destruct (concatenate_audio empty add st0') as [r'|e']; [|done].
    injection Ht' as Hr. rewrite bind_Ok in Hexp |- *. rewrite Hr.
    destruct (export r.1 out) as [[]|e]; [|done].
    rewrite bind_Ok in Hexp |- *. injection Hexp as <- <-.
    eexists. split; [done|]. simpl. by rewrite (Hg0 r), (Hg0' r'), Hg.
Qed.

(** X18: the key of a file ignores leading zeros of the number, the case
    of the speaker token and whatever follows the extension: a name made
    of digits, an underscore, ASCII letters and the extension has the key
    of its number and its lowercased token, and so has the name with one
    more zero in front, the token in lower case and nothing after the
    extension. *)
Theorem clip_key_normalises (g1 g2 r : string) :
  g1 ≠ EmptyString → PyStr.forallb isdigit g1 = true →
  g2 ≠ EmptyString → PyStr.forallb isletter g2 = true →
  ∃ n, int g1 = Some n ∧
    clip_key (g1 +:+ "_" +:+ g2 +:+ ".wav" +:+ r) = Some (n, lower g2) ∧
    clip_key ("0" +:+ g1 +:+ "_" +:+ lower g2 +:+ ".wav") = Some (n, lower g2).
Proof.
  intros H1 Hd H2 Hl. destruct (int_digits g1 Hd) as [n Hn].
  exists n. split_and!; [done| |].
  - unfold clip_key. rewrite pattern_intro by done. simpl. by rewrite Hn.
  - unfold clip_key.
    change ("0" +:+ g1 +:+ ?x) with (String "0" g1 +:+ x).
    rewrite <- (append_nil_r ".wav").
    rewrite pattern_intro;
      [|done|by (simpl; rewrite Hd)| |by apply lower_letters].
    + simpl. by rewrite int_leading_zero, Hn, lower_idemp.
    + by destruct g2.
Qed.

End AssemblerExtras.

Lemma clip_key_normalises_witness :
  "7" ≠ EmptyString ∧ PyStr.forallb isdigit "7" = true ∧
  "Alan" ≠ EmptyString ∧ PyStr.forallb isletter "Alan" = true ∧
  ∃ n, int "7" = Some n ∧
    clip_key ("7" +:+ "_" +:+ "Alan" +:+ ".wav" +:+ ".bak") = Some (n, lower "Alan") ∧
    clip_key ("0" +:+ "7" +:+ "_" +:+ lower "Alan" +:+ ".wav") = Some (n, lower "Alan").
Proof.
  split; [discriminate|]. split; [reflexivity|].
  split; [discriminate|]. split; [reflexivity|].
  apply (clip_key_normalises "7" "Alan" ".bak"); (discriminate || reflexivity).
Defined.

Lemma script_items_Some lines i s t :
  script_items lines !! i = Some (s, Some t) →
  tagged_lines lines !! i = Some (s, t).
Proof.
  unfold script_items. destruct (_extract_speaker_names lines).
  - rewrite list_lookup_fmap. by destruct (_ !! i).
  - rewrite list_lookup_fmap.
    destruct (tagged_lines lines !! i) as [[s' t']|]; [|done].
    by intros [= -> ->].
Qed.

Section Provenance.

Context {ST : Type} (speech_create : ST → string → string → ST * option (list byte)).

Lemma drive_write_origin vm c k items f audio :
  WriteToFile f audio ∈ (drive speech_create vm c k items).2 →
  ∃ i s text voice c1,
    items !! i = Some (s, Some text) ∧
    vm !! s = Some voice ∧ voice ≠ EmptyString ∧
    f = clip_filename (k + N.of_nat i) s ∧
    (speech_create c1 voice text).2 = Some audio.
Proof.
  revert c k. induction items as [|[s text] items IH]; intros c k; simpl.
  - by intros ?%elem_of_nil.
  - assert (∀ c', WriteToFile f audio ∈ (drive speech_create vm c' (N.succ k) items).2 →
      ∃ i s0 text0 voice c1,
        ((s, text) :: items) !! i = Some (s0, Some text0) ∧
        vm !! s0 = Some voice ∧ voice ≠ EmptyString ∧
        f = clip_filename (k + N.of_nat i) s0 ∧
        (speech_create c1 voice text0).2 = Some audio) as Hrest.
    { intros c' (i & s0 & text0 & voice & c1 & Hi & Hv & Hne & -> & Ha)%IH.
      exists (S i), s0, text0, voice, c1.
      split_and!; [done..| |done]. by rewrite <- N_succ_add_nat. }
    unfold _generate_single_audio.
    destruct (vm !! s) as [[|a v]|] eqn:Hv.
    + destruct (drive _ _ _ _ _) as [c' tr] eqn:Ed. simpl.
      intros [?|Hin]%elem_of_cons; [done|]. apply (Hrest c). by rewrite Ed.
    + destruct text as [t|].
      * destruct (speech_create c (String a v) t) as [c1 [audio'|]] eqn:Hsc;
          destruct (drive _ _ _ _ _) as [c' tr] eqn:Ed; simpl;
          rewrite ?elem_of_cons, ?elem_of_app, ?elem_of_cons.
        -- intros [?|[?|[Heq|Hin]]]; [done..| |].
           ++ injection Heq as -> ->. exists 0, s, t, (String a v), c.
              by rewrite Hsc, N.add_0_r.
           ++ apply (Hrest c1). by rewrite Ed.
        -- intros [?|[?|[?|Hin]]]; [done..|]. apply (Hrest c1). by rewrite Ed.
      * destruct (drive _ _ _ _ _) as [c' tr] eqn:Ed. simpl.
        intros [?|Hin]%elem_of_cons; [done|]. apply (Hrest c). by rewrite Ed.
    + destruct (drive _ _ _ _ _) as [c' tr] eqn:Ed. simpl.
      intros [?|Hin]%elem_of_cons; [done|]. apply (Hrest c). by rewrite Ed.
Qed.

(** X19: every file written by a run holds an answer of the provider to
    the request for its own line: each write of the trace is the clip of a
    tagged line whose speaker has a non-empty voice, it is named after the
    number of that line and that speaker, and the audio written is what
    the provider returned for that voice and the text of that line. *)
Theorem written_audio_is_the_answer content vm c0 :
  ∃ p st, init content vm = Ok p ∧
    generate_audio speech_create p c0 = Ok st ∧
    ∀ f audio, WriteToFile f audio ∈ trace st →
      ∃ i s text voice c1,
        tagged_lines (lines p) !! i = Some (s, text) ∧
        voice_map p !! s = Some voice ∧ voice ≠ EmptyString ∧
        f = clip_filename (1 + N.of_nat i) s ∧
        (speech_create c1 voice text).2 = Some audio.
Proof.
  destruct (run_of_script speech_create content vm c0)
    as (p & st & Hinit & Hrun & Htr & _).
  exists p, st. split_and!; [done..|].
  intros f audio Hw. rewrite Htr in Hw.
  apply elem_of_cons in Hw as [?|Hw]; [done|].
  apply drive_write_origin in Hw
    as (i & s & text & voice & c1 & Hi%script_items_Some & Hv & Hne & -> & Ha).
  by exists i, s, text, voice, c1.
Qed.

End Provenance.

Section Rerun.

Context {AudioSegment : Type}.
Variables from_wav from_wav' : string → option AudioSegment.
Variable empty : AudioSegment.
Variable add : AudioSegment → AudioSegment → result AudioSegment.
Variable export : AudioSegment → string → result unit.

Lemma load_audio_files_ext (listdir : list string) :
  (∀ f, f ∈ listdir → from_wav' f = from_wav f) →
  load_audio_files from_wav' listdir = load_audio_files from_wav listdir.
Proof.
  intros Hext. rewrite !load_audio_files_spec.
  assert (∀ f, f ∈ merge_sort String.le listdir → from_wav' f = from_wav f) as Hs.
  { intros f Hf. apply Hext. by rewrite <- (merge_sort_Permutation String.le). }
  rewrite (omap_ext_in (decoded from_wav') (decoded from_wav)).
  - rewrite (omap_ext_in (message_of from_wav') (message_of from_wav)); [done|].
    intros f Hf. unfold message_of. by rewrite Hs.
  - intros f Hf. unfold decoded. by rewrite Hs.
Qed.

(** X20: the assembler can be run again on its own directory: the file
    that the first run exported under the default name is not matched by
    the pattern, so the second run, with the same clips, prints the same
    messages and exports the same track. *)
Theorem rerun_ignores_the_previous_export (listdir : list string) :
  (∀ f, f ∈ listdir → from_wav' f = from_wav f) →
  __main__ from_wav' empty add export ("final_output.wav" :: listdir)
  = __main__ from_wav empty add export listdir.
Proof.
  intros Hext. unfold __main__.
  rewrite <- (export_ignores_unmatched from_wav' empty add export
                ("final_output.wav" :: listdir)).
  rewrite filter_cons_False by (vm_compute; by intros [? ?]).
  rewrite export_ignores_unmatched.
  unfold export_final_audio. by rewrite load_audio_files_ext.
Qed.

End Rerun.

Lemma rerun_ignores_the_previous_export_witness :
  (∀ f, f ∈ ["1_a.wav"; "2_b.wav"] → three_clips f = three_clips f) ∧
  __main__ three_clips [] bytes_add export_ok
    ["final_output.wav"; "1_a.wav"; "2_b.wav"]
  = __main__ three_clips [] bytes_add export_ok ["1_a.wav"; "2_b.wav"].
Proof.
  split; [reflexivity|].
  apply (rerun_ignores_the_previous_export three_clips three_clips [] bytes_add
           export_ok ["1_a.wav"; "2_b.wav"]).
  reflexivity.
Defined.
